(** * heap.h: an array-backed binary min-heap of <element, priority> pairs

    A shallow embedding of [class Heap] and the verification of its
    constructors, of [insert] and [extractMin] with their helpers
    [trickleUp], [trickleDown], [swap] and [heapify], and of the accessors.

    - [int] is a 32-bit signed integer: values are kept in [Z] and every
      arithmetic operation of the source is checked against the range of
      [int]; leaving the range is undefined behaviour in C++.
    - [Pair* A] is a list of cells; a cell of [new Pair[n]] that was never
      assigned holds no value; reading it is undefined behaviour, as is
      any access outside the array.
    - A member function is a function on the record of the three data
      members, in a monad of outcomes: a result, the exception thrown by
      [new], or the undefined behaviour that was run into. The source
      itself raises no error and tests no argument.
    - The recursive [trickleUp] and [trickleDown] are defined by recursion
      on a budget of calls computed from their arguments; the budget is
      shown never to be exhausted, and any larger one to give the same
      result.
    - [printHeap] returns the sequence of items it inserts into
      [std::cout]. The destructor only releases the array and is left
      out. *)

From Stdlib Require Import ZArith Lia List Permutation Sorted Bool String.
From stdpp Require Import base list.

Local Open Scope Z_scope.

(** ** Outcomes of running a piece of the source *)

(** Undefined behaviour the source can run into. *)
Inductive fault : Type :=
| OutOfBounds      (* access outside an array *)
| Indeterminate    (* read of a cell that was never assigned *)
| Overflow.        (* signed integer overflow *)

(** The only exception the source can raise: [new Pair[n]] with [n < 0]
    throws [std::bad_array_new_length] (since C++11). *)
Inductive exception : Type :=
| bad_array_new_length.

Inductive outcome (T : Type) : Type :=
| Ret (t : T)
| Throw (e : exception)
| Undefined (f : fault)
| OutOfFuel.

Arguments Ret {T} t.
Arguments Throw {T} e.
Arguments Undefined {T} f.
Arguments OutOfFuel {T}.

Definition bind {T U : Type} (m : outcome T) (k : T -> outcome U) : outcome U :=
  match m with
  | Ret t => k t
  | Throw e => Throw e
  | Undefined f => Undefined f
  | OutOfFuel => OutOfFuel
  end.

Notation "'do' x <- m ;; k" := (bind m (fun x => k))
  (at level 10, x name, m at level 99, k at level 200,
   format "'[v' 'do'  x  <-  m  ;;  '/' k ']'").

(** ** The type [int] *)

Definition INT_MAX : Z := 2147483647.
Definition INT_MIN : Z := -2147483648.

Definition in_int (z : Z) : bool := (INT_MIN <=? z) && (z <=? INT_MAX).

Definition int (z : Z) : outcome Z :=
  if in_int z then Ret z else Undefined Overflow.

(** ** Data members *)

(** [class Pair { int element; int priority; }] *)
Record Pair : Type := mkPair { element : Z; priority : Z }.

(** A slot of the array: [None] until it is first assigned. *)
Abbreviation cell := (option Pair).

(** [Pair* A; int hCapacity; int hSize;] *)
Record Heap : Type := mkHeap {
  A : list cell;
  hCapacity : Z;
  hSize : Z
}.

Definition set_A (h : Heap) (a : list cell) : Heap :=
  {| A := a; hCapacity := hCapacity h; hSize := hSize h |}.

Definition set_hSize (h : Heap) (n : Z) : Heap :=
  {| A := A h; hCapacity := hCapacity h; hSize := n |}.

(** ** Arrays *)

Definition in_bounds {T : Type} (a : list T) (i : Z) : bool :=
  (0 <=? i) && (i <? Z.of_nat (length a)).

(** [a[i]] as an rvalue. *)
Definition rd (a : list cell) (i : Z) : outcome Pair :=
  if in_bounds a i then
    match a !! Z.to_nat i with
    | Some (Some p) => Ret p
    | _ => Undefined Indeterminate
    end
  else Undefined OutOfBounds.

(** [a[i] = p]. *)
Definition wr (a : list cell) (i : Z) (p : Pair) : outcome (list cell) :=
  if in_bounds a i then Ret (<[Z.to_nat i := Some p]> a)
  else Undefined OutOfBounds.

(** [p[i]] for the [const int*] arguments of the array constructor. *)
Definition rd_int (a : list Z) (i : Z) : outcome Z :=
  if in_bounds a i then
    match a !! Z.to_nat i with
    | Some z => Ret z
    | None => Undefined OutOfBounds
    end
  else Undefined OutOfBounds.

(** [new Pair[n]]: [n] cells, none of them assigned (memory is assumed
    not to run out). *)
Definition new_Pair (n : Z) : outcome (list cell) :=
  if n <? 0 then Throw bad_array_new_length
  else Ret (replicate (Z.to_nat n) None).

(** ** Accessors *)

Definition empty (h : Heap) : bool := hSize h =? 0.
Definition size (h : Heap) : Z := hSize h.
Definition capacity (h : Heap) : Z := hCapacity h.

Definition peekMin (h : Heap) : outcome Z :=
  do p <- rd (A h) 0 ;; Ret (element p).

Definition peekMinPriority (h : Heap) : outcome Z :=
  do p <- rd (A h) 0 ;; Ret (priority p).

(** ** Modifiers *)

(** [Heap::swap] *)
Definition swap (i j : Z) (h : Heap) : outcome Heap :=
  do temp <- rd (A h) i ;;
  do aj <- rd (A h) j ;;
  do a1 <- wr (A h) i aj ;;
  do a2 <- wr a1 j temp ;;
  Ret (set_A h a2).

(** [Heap::trickleUp], with a budget of calls: [i == 0] is tested first,
    and the priorities are read only when it fails. *)
Fixpoint trickleUp_rec (fuel : nat) (i : Z) (h : Heap) : outcome Heap :=
  match fuel with
  | O => OutOfFuel
  | S fuel' =>
      if i =? 0 then Ret h
      else
        do ai <- rd (A h) i ;;
        do i1 <- int (i - 1) ;;
        do par <- int (i1 ÷ 2) ;;
        do ap <- rd (A h) par ;;
        if priority ai >=? priority ap then Ret h
        else
          do h1 <- swap i par h ;;
          trickleUp_rec fuel' par h1
  end.

(** [trickleUp(i)]: the index shrinks with every call and stays at least
    0, so [i + 1] calls are enough. *)
Definition trickleUp (i : Z) (h : Heap) : outcome Heap :=
  trickleUp_rec (S (Z.to_nat i)) i h.

(** [Heap::insert]: the two assignments to the members of [A[hSize]] are
    one write of the pair. *)
Definition insert (elem prio : Z) (h : Heap) : outcome Heap :=
  do a1 <- wr (A h) (hSize h) {| element := elem; priority := prio |} ;;
  do h1 <- trickleUp (hSize h) (set_A h a1) ;;
  do n <- int (hSize h1 + 1) ;;
  Ret (set_hSize h1 n).

(** [Heap::trickleDown], with a budget of calls. The conditions of the
    [if ... else if ... else if] chain are evaluated in the order of the
    source, each [&&] reading its right operand only when the left one
    holds. *)
Fixpoint trickleDown_rec (fuel : nat) (i : Z) (h : Heap) : outcome Heap :=
  match fuel with
  | O => OutOfFuel
  | S fuel' =>
      do i2 <- int (2 * i) ;;
      do left <- int (i2 + 1) ;;
      do right <- int (i2 + 2) ;;
      do last <- int (hSize h - 1) ;;
      (* left > hSize-1 && right > hSize-1 *)
      if (left >? last) && (right >? last) then Ret h
      else
        (* right > hSize-1 && A[i].priority > A[left].priority *)
        do only_left <-
          (if right >? last then
             do ai <- rd (A h) i ;;
             do al <- rd (A h) left ;;
             Ret (priority ai >? priority al)
           else Ret false) ;;
        if only_left then swap i left h
        (* left < hSize && right < hSize *)
        else if (left <? hSize h) && (right <? hSize h) then
          do ai <- rd (A h) i ;;
          do al <- rd (A h) left ;;
          (* A[i].priority <= A[left].priority
             && A[i].priority <= A[right].priority *)
          do smallest <-
            (if priority ai <=? priority al then
               do ar <- rd (A h) right ;;
               Ret (priority ai <=? priority ar)
             else Ret false) ;;
          if smallest then Ret h
          else
            do ar <- rd (A h) right ;;
            (* A[left].priority > A[right].priority *)
            if priority al >? priority ar then
              do h1 <- swap i right h ;;
              trickleDown_rec fuel' right h1
            else
              do h1 <- swap i left h ;;
              trickleDown_rec fuel' left h1
        else Ret h
  end.

(** [trickleDown(i)]: the index grows with every call and stays below
    [hSize], so [hSize - i + 1] calls are enough. *)
Definition trickleDown (i : Z) (h : Heap) : outcome Heap :=
  trickleDown_rec (S (Z.to_nat (hSize h - i))) i h.

(** [Heap::extractMin] *)
Definition extractMin (h : Heap) : outcome (Z * Heap) :=
  do a0 <- rd (A h) 0 ;;
  do last <- int (hSize h - 1) ;;
  do al <- rd (A h) last ;;
  do a1 <- wr (A h) 0 al ;;
  do n <- int (hSize h - 1) ;;
  do h1 <- trickleDown 0 (set_hSize (set_A h a1) n) ;;
  Ret (element a0, h1).

(** [Heap::heapify]: [for (int i = (hSize/2)-1; i >= 0; i--)
    trickleDown(i)]. With [k] iterations left the loop variable is
    [k - 1]. *)
Fixpoint heapify_loop (k : nat) (h : Heap) : outcome Heap :=
  match k with
  | O => Ret h
  | S k' =>
      do h1 <- trickleDown (Z.of_nat k') h ;;
      heapify_loop k' h1
  end.

Definition heapify (h : Heap) : outcome Heap :=
  do half <- int (hSize h ÷ 2) ;;
  do start <- int (half - 1) ;;
  heapify_loop (Z.to_nat (start + 1)) h.

(** ** Constructors *)

(** [Heap::Heap()] *)
Definition Heap_default : outcome Heap :=
  do a <- new_Pair 10 ;;
  Ret {| A := a; hCapacity := 10; hSize := 0 |}.

(** [Heap::Heap(int c)] *)
Definition Heap_capacity (c : Z) : outcome Heap :=
  do a <- new_Pair c ;;
  Ret {| A := a; hCapacity := c; hSize := 0 |}.

(** The loop of the array constructor,
    [for (int i = 0; i < s; i++) insert(Elements[i], Priorities[i])]:
    [k] iterations are left and the loop variable is [i]. *)
Fixpoint insert_arrays (k : nat) (i : Z) (Priorities Elements : list Z)
    (h : Heap) : outcome Heap :=
  match k with
  | O => Ret h
  | S k' =>
      do e <- rd_int Elements i ;;
      do p <- rd_int Priorities i ;;
      do h1 <- insert e p h ;;
      insert_arrays k' (i + 1) Priorities Elements h1
  end.

(** [Heap::Heap(const int* Priorities, const int* Elements, int s, int c)].
    The body assigns [A] and [hCapacity] and never assigns [hSize]:
    [hSize0] is whatever the storage of the object holds in that member
    when the body starts (zero for an object of static storage duration,
    anything for an automatic or a dynamic one). *)
Definition Heap_arrays (hSize0 : Z) (Priorities Elements : list Z) (s c : Z)
    : outcome Heap :=
  do n <- int (s + c) ;;
  do a <- new_Pair n ;;
  insert_arrays (Z.to_nat s) 0 Priorities Elements
    {| A := a; hCapacity := n; hSize := hSize0 |}.

(** [std::copy(src, src + n, dst + off)], one cell at a time; a range
    with [n < 0] is not a valid range. *)
Fixpoint copy_cells (k : nat) (src : list cell) (i : Z) (dst : list cell)
    (off : Z) : outcome (list cell) :=
  match k with
  | O => Ret dst
  | S k' =>
      do p <- rd src i ;;
      do dst1 <- wr dst (off + i) p ;;
      copy_cells k' src (i + 1) dst1 off
  end.

Definition std_copy (src : list cell) (n : Z) (dst : list cell) (off : Z)
    : outcome (list cell) :=
  if n <? 0 then Undefined OutOfBounds
  else copy_cells (Z.to_nat n) src 0 dst off.

(** [Heap::Heap(const Heap& Heap1, const Heap& Heap2, int c)] *)
Definition Heap_merge (Heap1 Heap2 : Heap) (c : Z) : outcome Heap :=
  do n <- int (hSize Heap1 + hSize Heap2) ;;
  do cap <- int (n + c) ;;
  do a <- new_Pair cap ;;
  do a1 <- std_copy (A Heap1) (hSize Heap1) a 0 ;;
  do a2 <- std_copy (A Heap2) (hSize Heap2) a1 (hSize Heap1) ;;
  heapify {| A := a2; hCapacity := cap; hSize := n |}.

(** ** Output *)

(** What is inserted into [std::cout]: a string literal, an [int], or
    [std::endl]. *)
Inductive token : Type :=
| Text (s : string)
| Num (z : Z)
| Endl.

(** [Heap::printHeap]: [for (int i = 0; i < hSize; i++) std::cout << ...].
    [k] iterations are left and the loop variable is [i]; the result is
    what has been written when the loop ends. *)
Fixpoint printHeap_loop (k : nat) (i : Z) (h : Heap) : outcome (list token) :=
  match k with
  | O => Ret []
  | S k' =>
      do ai <- rd (A h) i ;;
      do rest <- printHeap_loop k' (i + 1) h ;;
      Ret (Text "pos:" :: Num i :: Text " key:" :: Num (priority ai)
           :: Text " elem:" :: Num (element ai) :: Endl :: rest)
  end.

Definition printHeap (h : Heap) : outcome (list token) :=
  printHeap_loop (Z.to_nat (hSize h)) 0 h.

(** ** Specification vocabulary *)

(** [parent(i) = (i-1)/2], with the truncating division of C++. *)
Definition parent (i : Z) : Z := (i - 1) ÷ 2.

(** The priority stored at index [i] (0 where nothing is stored). *)
Definition prio (a : list cell) (i : Z) : Z :=
  match a !! Z.to_nat i with
  | Some (Some p) => priority p
  | _ => 0
  end.

(** The first [n] cells have been assigned. *)
Definition filled (a : list cell) (n : Z) : Prop :=
  forall i, 0 <= i < n -> exists p, a !! Z.to_nat i = Some (Some p).

Definition filledb (a : list cell) (n : Z) : bool :=
  forallb (fun i => match a !! i with Some (Some _) => true | _ => false end)
          (seq 0 (Z.to_nat n)).

(** The heap-order invariant on the first [n] cells. *)
Definition heap_ordered (a : list cell) (n : Z) : Prop :=
  forall i, 1 <= i < n -> prio a (parent i) <= prio a i.

Definition heap_orderedb (a : list cell) (n : Z) : bool :=
  forallb (fun i => prio a (parent (Z.of_nat i)) <=? prio a (Z.of_nat i))
          (seq 1 (Z.to_nat n - 1)).

(** Heap order below index [k]: every node whose parent is at [k] or
    later is no smaller than its parent. *)
Definition heap_from (a : list cell) (n k : Z) : Prop :=
  forall j, 1 <= j < n -> k <= parent j -> prio a (parent j) <= prio a j.

(** The representation invariant of the class: the array has [hCapacity]
    cells, the size is within the capacity, and the cells below the size
    hold entries. [2 * hCapacity] fits an [int], so that the child
    indices [2*i+1] and [2*i+2] computed by [trickleDown] do. *)
Record heap_wf (h : Heap) : Prop := mk_heap_wf {
  wf_length : Z.of_nat (length (A h)) = hCapacity h;
  wf_size : 0 <= hSize h <= hCapacity h;
  wf_capacity : 2 * hCapacity h <= INT_MAX;
  wf_filled : filled (A h) (hSize h)
}.

Definition heap_wfb (h : Heap) : bool :=
  (Z.of_nat (length (A h)) =? hCapacity h) && (0 <=? hSize h) &&
  (hSize h <=? hCapacity h) && (2 * hCapacity h <=? INT_MAX) &&
  filledb (A h) (hSize h).

(** The invariant of the class. *)
Definition heap_inv (h : Heap) : Prop :=
  heap_wf h /\ heap_ordered (A h) (hSize h).

Definition heap_invb (h : Heap) : bool :=
  heap_wfb h && heap_orderedb (A h) (hSize h).

(** The entries of the heap: the pairs in the cells [0 .. hSize-1]. *)
Definition entries (h : Heap) : list Pair :=
  omap id (take (Z.to_nat (hSize h)) (A h)).

(** The pairs <Elements[i], Priorities[i]> for [0 <= i < s]. *)
Definition pairs_of (Priorities Elements : list Z) (s : Z) : list Pair :=
  zip_with mkPair (take (Z.to_nat s) Elements) (take (Z.to_nat s) Priorities).

Definition by_priority (x y : Pair) : Prop := priority x <= priority y.

(** [j] is a proper ancestor of [i] in the implicit tree: as a relation,
    and as a test that walks up from [i]. *)
Inductive proper_ancestor : Z -> Z -> Prop :=
| ancestor_parent i : 1 <= i -> proper_ancestor (parent i) i
| ancestor_further j i :
    1 <= i -> proper_ancestor j (parent i) -> proper_ancestor j i.

Fixpoint ancestor_within (n : nat) (j i : Z) : bool :=
  match n with
  | O => false
  | S n' => (1 <=? i) && ((j =? parent i) || ancestor_within n' j (parent i))
  end.

Definition is_ancestor (j i : Z) : bool := ancestor_within (Z.to_nat i) j i.

(** Insert a list of pairs, one call of [insert] each. *)
Fixpoint insert_all (xs : list Pair) (h : Heap) : outcome Heap :=
  match xs with
  | [] => Ret h
  | x :: xs' =>
      do h1 <- insert (element x) (priority x) h ;;
      insert_all xs' h1
  end.

(** [n] calls of [extractMin], collecting the returned elements. *)
Fixpoint extract_elements (n : nat) (h : Heap) : outcome (list Z * Heap) :=
  match n with
  | O => Ret ([], h)
  | S n' =>
      do r <- extractMin h ;;
      do rest <- extract_elements n' (snd r) ;;
      Ret (fst r :: fst rest, snd rest)
  end.

(** The same calls, each returned element recorded with the priority
    [peekMinPriority] reports just before the call. *)
Fixpoint extract_all (n : nat) (h : Heap) : outcome (list Pair * Heap) :=
  match n with
  | O => Ret ([], h)
  | S n' =>
      do p <- peekMinPriority h ;;
      do r <- extractMin h ;;
      do rest <- extract_all n' (snd r) ;;
      Ret ({| element := fst r; priority := p |} :: fst rest, snd rest)
  end.

(** The heaps a program can build: a constructor, then insertions within
    the capacity and extractions from non-empty heaps. The array
    constructor is taken on zero-initialised storage ([hSize0 = 0]), the
    only case in which it makes an insertion without undefined behaviour. *)
Inductive reachable : Heap -> Prop :=
| reach_default h : Heap_default = Ret h -> reachable h
| reach_capacity c h :
    0 <= c -> 2 * c <= INT_MAX -> Heap_capacity c = Ret h -> reachable h
| reach_arrays P E s c h :
    0 <= s -> s <= Z.of_nat (length P) -> s <= Z.of_nat (length E) ->
    0 <= c -> 2 * (s + c) <= INT_MAX ->
    Heap_arrays 0 P E s c = Ret h -> reachable h
| reach_merge h1 h2 c h :
    reachable h1 -> reachable h2 ->
    0 <= c -> 2 * (hSize h1 + hSize h2 + c) <= INT_MAX ->
    Heap_merge h1 h2 c = Ret h -> reachable h
| reach_insert e p h h' :
    reachable h -> hSize h < hCapacity h -> insert e p h = Ret h' ->
    reachable h'
| reach_extractMin h e h' :
    reachable h -> 0 < hSize h -> extractMin h = Ret (e, h') ->
    reachable h'.

(** A run did not exhaust its budget of calls. *)
Definition halts {T : Type} (r : outcome T) : Prop := r <> OutOfFuel.

(** The line [printHeap] writes for the entry [x] at index [i]. *)
Definition line (i : Z) (x : Pair) : list token :=
  [Text "pos:"; Num i; Text " key:"; Num (priority x);
   Text " elem:"; Num (element x); Endl].

(** ** Sequences of calls *)

(** A call of one of the two modifiers. *)
Inductive op : Type :=
| Insert (elem prio : Z)
| ExtractMin.

Definition step (o : op) (h : Heap) : outcome Heap :=
  match o with
  | Insert e p => insert e p h
  | ExtractMin => do r <- extractMin h ;; Ret (snd r)
  end.

Fixpoint run (ops : list op) (h : Heap) : outcome Heap :=
  match ops with
  | [] => Ret h
  | o :: ops' => do h1 <- step o h ;; run ops' h1
  end.

(** The size a heap of size [n] and capacity [cap] has after the calls
    [ops]; [None] when one of them is an insertion into a full heap or an
    extraction from an empty one. *)
Fixpoint size_after (ops : list op) (n cap : Z) : option Z :=
  match ops with
  | [] => Some n
  | Insert _ _ :: ops' =>
      if n <? cap then size_after ops' (n + 1) cap else None
  | ExtractMin :: ops' =>
      if 0 <? n then size_after ops' (n - 1) cap else None
  end.

Definition is_insert (o : op) : bool :=
  match o with Insert _ _ => true | ExtractMin => false end.

Definition n_inserts (ops : list op) : Z :=
  Z.of_nat (length (List.filter is_insert ops)).

Definition n_extracts (ops : list op) : Z :=
  Z.of_nat (length (List.filter (fun o => negb (is_insert o)) ops)).

(** ** Vocabulary of the proofs *)

(** [a'] is [a] with the cells [i] and [j] exchanged. *)
Definition exchanged (a a' : list cell) (i j : Z) : Prop :=
  length a' = length a /\
  a' !! Z.to_nat i = a !! Z.to_nat j /\
  a' !! Z.to_nat j = a !! Z.to_nat i /\
  (forall k, 0 <= k -> k <> i -> k <> j -> a' !! Z.to_nat k = a !! Z.to_nat k) /\
  a' ≡ₚ a.

(** During [trickleUp] at [i]: the heap order holds everywhere except
    possibly between [i] and its parent, and the children of [i] are no
    smaller than the parent of [i]. *)
Definition up_inv (a : list cell) (n i : Z) : Prop :=
  (forall j, 1 <= j < n -> j <> i -> prio a (parent j) <= prio a j) /\
  (forall j, 1 <= j < n -> parent j = i -> 1 <= i ->
             prio a (parent i) <= prio a j).

(** During [trickleDown] at [i], among the nodes whose parent is at [k]
    or later: the heap order holds except possibly between [i] and its
    children, and the children of [i] are no smaller than the parent
    of [i]. *)
Definition down_inv (a : list cell) (n k i : Z) : Prop :=
  (forall j, 1 <= j < n -> k <= parent j -> parent j <> i ->
             prio a (parent j) <= prio a j) /\
  (forall j, 1 <= j < n -> parent j = i -> 1 <= i -> k <= parent i ->
             prio a (parent i) <= prio a j).

(** ** Integers and array accesses *)

Lemma int_Ret z : INT_MIN <= z <= INT_MAX -> int z = Ret z.
Proof.
  intros Hz. unfold int, in_int.
  destruct (Z.leb_spec INT_MIN z), (Z.leb_spec z INT_MAX); simpl; auto; lia.
Qed.

Lemma int_inv z r : int z = Ret r -> r = z /\ INT_MIN <= z <= INT_MAX.
Proof.
  unfold int, in_int.
  destruct (Z.leb_spec INT_MIN z), (Z.leb_spec z INT_MAX); simpl;
    intros E; inversion E; lia.
Qed.

Lemma int_halts z : halts (int z).
Proof. unfold halts, int. destruct (in_int z); discriminate. Qed.

Lemma in_bounds_true {T} (a : list T) i :
  in_bounds a i = true <-> 0 <= i < Z.of_nat (length a).
Proof. unfold in_bounds. rewrite andb_true_iff, Z.leb_le, Z.ltb_lt. tauto. Qed.

Lemma rd_Ret a i p :
  rd a i = Ret p <-> 0 <= i /\ a !! Z.to_nat i = Some (Some p).
Proof.
  unfold rd. destruct (in_bounds a i) eqn:Hb.
  - apply in_bounds_true in Hb.
    destruct (a !! Z.to_nat i) as [[q|]|] eqn:E; split; intros H;
      try discriminate; try (destruct H; discriminate).
    + inversion H; subst. split; [lia | reflexivity].
    + destruct H as [_ H]. inversion H. reflexivity.
  - split; [discriminate|]. intros [H0 Hl].
    apply lookup_lt_Some in Hl.
    assert (in_bounds a i = true) by (apply in_bounds_true; lia). congruence.
Qed.

Lemma rd_halts a i : halts (rd a i).
Proof.
  unfold halts, rd. destruct (in_bounds a i); [|discriminate].
  destruct (a !! Z.to_nat i) as [[?|]|]; discriminate.
Qed.

Lemma rd_prio a i p : rd a i = Ret p -> prio a i = priority p.
Proof. intros H. apply rd_Ret in H as [_ H]. unfold prio. now rewrite H. Qed.

Lemma rd_filled a n i : filled a n -> 0 <= i < n -> exists p, rd a i = Ret p.
Proof.
  intros Hf Hi. destruct (Hf i Hi) as [p Hp]. exists p.
  apply rd_Ret. split; [lia | assumption].
Qed.

Lemma filled_length a n : filled a n -> n <= Z.of_nat (length a).
Proof.
  intros Hf. destruct (Z_le_gt_dec n (Z.of_nat (length a))) as [|Hgt]; [assumption|].
  destruct (Hf (Z.of_nat (length a))) as [p Hp]; [lia|].
  apply lookup_lt_Some in Hp. lia.
Qed.

Lemma wr_Ret a i p :
  0 <= i < Z.of_nat (length a) -> wr a i p = Ret (<[Z.to_nat i := Some p]> a).
Proof.
  intros Hi. unfold wr.
  now replace (in_bounds a i) with true by (symmetry; now apply in_bounds_true).
Qed.

Lemma wr_inv a i p a' :
  wr a i p = Ret a' ->
  0 <= i < Z.of_nat (length a) /\ a' = <[Z.to_nat i := Some p]> a.
Proof.
  unfold wr. destruct (in_bounds a i) eqn:Hb; [|discriminate].
  apply in_bounds_true in Hb. intros E. inversion E. auto.
Qed.

Lemma wr_oob a i p :
  ~ (0 <= i < Z.of_nat (length a)) -> wr a i p = Undefined OutOfBounds.
Proof.
  intros Hi. unfold wr. destruct (in_bounds a i) eqn:Hb; [|reflexivity].
  apply in_bounds_true in Hb. contradiction.
Qed.

Lemma rd_oob a i :
  ~ (0 <= i < Z.of_nat (length a)) -> rd a i = Undefined OutOfBounds.
Proof.
  intros Hi. unfold rd. destruct (in_bounds a i) eqn:Hb; [|reflexivity].
  apply in_bounds_true in Hb. contradiction.
Qed.

Lemma wr_halts a i p : halts (wr a i p).
Proof. unfold halts, wr. destruct (in_bounds a i); discriminate. Qed.

Lemma bind_Ret_inv {T U} (m : outcome T) (k : T -> outcome U) u :
  bind m k = Ret u -> exists t, m = Ret t /\ k t = Ret u.
Proof. destruct m; simpl; intros H; try discriminate. eauto. Qed.

Lemma bind_halts {T U} (m : outcome T) (k : T -> outcome U) :
  halts m -> (forall t, m = Ret t -> halts (k t)) -> halts (bind m k).
Proof.
  unfold halts. destruct m; simpl; intros Hm Hk; auto.
Qed.

(** ** The implicit tree *)

Lemma parent_spec i :
  1 <= i -> 0 <= parent i < i /\ (i = 2 * parent i + 1 \/ i = 2 * parent i + 2).
Proof.
  intros Hi. unfold parent. rewrite Z.quot_div_nonneg by lia.
  pose proof (Z.div_mod (i - 1) 2 ltac:(lia)).
  pose proof (Z.mod_pos_bound (i - 1) 2 ltac:(lia)). lia.
Qed.

Lemma parent_left i : 0 <= i -> parent (2 * i + 1) = i.
Proof.
  intros Hi. destruct (parent_spec (2 * i + 1)) as [? ?]; lia.
Qed.

Lemma parent_right i : 0 <= i -> parent (2 * i + 2) = i.
Proof.
  intros Hi. destruct (parent_spec (2 * i + 2)) as [? ?]; lia.
Qed.

Lemma parent_child j i :
  1 <= j -> parent j = i -> j = 2 * i + 1 \/ j = 2 * i + 2.
Proof. intros Hj Hp. destruct (parent_spec j Hj) as [? ?]. lia. Qed.

(** ** Exchanging two cells *)

Lemma insert_Permutation_cons {T} (l : list T) j x y :
  l !! j = Some y -> y :: <[j:=x]> l ≡ₚ x :: l.
Proof.
  revert j. induction l as [|z l IH]; intros [|j] Hj; simpl in *; try discriminate.
  - inversion Hj; subst. apply perm_swap.
  - rewrite (perm_swap z y), (IH j Hj). apply perm_swap.
Qed.

Lemma exchange_Permutation {T} (l : list T) i j x y :
  l !! i = Some x -> l !! j = Some y -> <[j:=x]> (<[i:=y]> l) ≡ₚ l.
Proof.
  revert i j. induction l as [|z l IH]; intros [|i] [|j] Hi Hj;
    simpl in *; try discriminate.
  - inversion Hi; inversion Hj; subst. reflexivity.
  - inversion Hi; subst. now apply insert_Permutation_cons.
  - inversion Hj; subst. now apply insert_Permutation_cons.
  - constructor. now apply IH.
Qed.

Lemma swap_spec h i j x y :
  rd (A h) i = Ret x -> rd (A h) j = Ret y ->
  exists a', swap i j h = Ret (set_A h a') /\ exchanged (A h) a' i j.
Proof.
  intros Hx Hy. unfold swap. rewrite Hx, Hy. simpl.
  apply rd_Ret in Hx as [Hi Hx]. apply rd_Ret in Hy as [Hj Hy].
  pose proof (lookup_lt_Some _ _ _ Hx) as Li.
  pose proof (lookup_lt_Some _ _ _ Hy) as Lj.
  rewrite wr_Ret by lia. simpl.
  rewrite wr_Ret by (rewrite length_insert; lia). simpl.
  eexists. split; [reflexivity|].
  unfold exchanged. rewrite !length_insert. split; [reflexivity|].
  destruct (decide (i = j)) as [->|Hne].
  - rewrite list_lookup_insert_eq by (rewrite length_insert; lia).
    rewrite Hy in Hx. inversion Hx; subst.
    repeat split; auto.
    + intros k Hk Hki _.
      rewrite !list_lookup_insert_ne by lia. reflexivity.
    + eapply exchange_Permutation; eauto.
  - repeat split.
    + rewrite list_lookup_insert_ne by lia.
      rewrite list_lookup_insert_eq by lia. auto.
    + rewrite list_lookup_insert_eq by (rewrite length_insert; lia). auto.
    + intros k Hk Hki Hkj. rewrite !list_lookup_insert_ne by lia. reflexivity.
    + eapply exchange_Permutation; eauto.
Qed.

Lemma swap_inv i j h h' :
  swap i j h = Ret h' ->
  exists a', h' = set_A h a' /\ exchanged (A h) a' i j /\
             (exists x, rd (A h) i = Ret x) /\ (exists y, rd (A h) j = Ret y).
Proof.
  intros H. unfold swap in H.
  destruct (rd (A h) i) as [x| | |] eqn:Hx; try discriminate.
  destruct (rd (A h) j) as [y| | |] eqn:Hy; try discriminate.
  destruct (swap_spec h i j x y Hx Hy) as (a' & Hs & He).
  unfold swap in Hs. rewrite Hx, Hy in Hs. simpl in *.
  rewrite Hs in H. inversion H; subst. eauto 8.
Qed.

Lemma swap_halts i j h : halts (swap i j h).
Proof.
  unfold swap.
  repeat (apply bind_halts; [first [apply rd_halts | apply wr_halts] | intros ? _]).
  discriminate.
Qed.

Lemma exchanged_prio a a' i j :
  exchanged a a' i j -> 0 <= i -> 0 <= j ->
  prio a' i = prio a j /\ prio a' j = prio a i /\
  (forall k, 0 <= k -> k <> i -> k <> j -> prio a' k = prio a k).
Proof.
  intros (_ & Hi & Hj & Hk & _) _ _. unfold prio.
  rewrite Hi, Hj. repeat split; auto.
  intros k H0 H1 H2. now rewrite Hk.
Qed.

Lemma exchanged_filled a a' i j n :
  exchanged a a' i j -> 0 <= i < n -> 0 <= j < n -> filled a n -> filled a' n.
Proof.
  intros (_ & Hi & Hj & Hk & _) Ri Rj Hf k Rk.
  destruct (decide (k = i)) as [->|Hki]; [rewrite Hi; auto|].
  destruct (decide (k = j)) as [->|Hkj]; [rewrite Hj; auto|].
  rewrite Hk by lia. auto.
Qed.

(** ** trickleUp *)

Lemma trickleUp_rec_spec fuel : forall i h n,
  (Z.to_nat i < fuel)%nat -> 0 <= i < n -> n - 1 <= INT_MAX ->
  filled (A h) n -> up_inv (A h) n i ->
  exists a', trickleUp_rec fuel i h = Ret (set_A h a') /\
             length a' = length (A h) /\ filled a' n /\ heap_ordered a' n /\
             a' ≡ₚ A h /\
             (forall k, n <= k -> a' !! Z.to_nat k = A h !! Z.to_nat k).
Proof.
  induction fuel as [|fuel IH]; intros i h n Hfuel Hi Hn Hf [Hinv1 Hinv2]; [lia|].
  cbn [trickleUp_rec].
  destruct (Z.eqb_spec i 0) as [->|Hi0].
  { exists (A h). destruct h. repeat split; auto.
    intros j Hj. apply Hinv1; lia. }
  destruct (parent_spec i ltac:(lia)) as [Hp Hpc].
  destruct (rd_filled _ _ i Hf Hi) as [ai Hai].
  destruct (rd_filled _ _ (parent i) Hf ltac:(lia)) as [ap Hap].
  rewrite Hai. cbn [bind].
  rewrite (int_Ret (i - 1)) by (unfold INT_MIN, INT_MAX in *; lia). cbn [bind].
  fold (parent i).
  rewrite (int_Ret (parent i)) by (unfold INT_MIN, INT_MAX in *; lia). cbn [bind].
  rewrite Hap. cbn [bind].
  pose proof (rd_prio _ _ _ Hai) as Pi. pose proof (rd_prio _ _ _ Hap) as Pp.
  destruct (Z.geb_spec (priority ai) (priority ap)) as [Hge|Hlt].
  { exists (A h). destruct h. repeat split; auto.
    intros j Hj. destruct (decide (j = i)) as [->|Hne]; [lia | now apply Hinv1]. }
  destruct (swap_spec h i (parent i) ai ap Hai Hap) as (a1 & Hs & Hex).
  rewrite Hs. cbn [bind].
  destruct (exchanged_prio _ _ _ _ Hex ltac:(lia) ltac:(lia)) as (Qi & Qp & Qk).
  destruct (IH (parent i) (set_A h a1) n) as (a' & Hr & Hl & Hf' & Ho & Hperm & Hfr).
  - lia.
  - lia.
  - assumption.
  - simpl. eapply exchanged_filled; eauto; lia.
  - simpl. split.
    + intros j Hj Hjp.
      destruct (parent_spec j ltac:(lia)) as [Hpj _].
      destruct (decide (j = i)) as [->|Hji]; [lia|].
      rewrite (Qk j) by lia.
      destruct (decide (parent j = i)) as [Hpi|Hpi].
      * rewrite Hpi, Qi. rewrite <- Pp, <- Pi in *.
        pose proof (Hinv2 j Hj Hpi ltac:(lia)). lia.
      * destruct (decide (parent j = parent i)) as [Hpp|Hpp].
        -- rewrite Hpp, Qp. pose proof (Hinv1 j Hj Hji). rewrite Hpp in *. lia.
        -- rewrite (Qk (parent j)) by lia. now apply Hinv1.
    + intros j Hj Hjp Hp1.
      destruct (parent_spec (parent i) Hp1) as [Hpp _].
      destruct (parent_spec j ltac:(lia)) as [Hpj _].
      rewrite (Qk (parent (parent i))) by lia.
      pose proof (Hinv1 (parent i) ltac:(lia) ltac:(lia)) as Hgp.
      destruct (decide (j = i)) as [->|Hji]; [rewrite Qi; lia|].
      rewrite (Qk j) by lia.
      pose proof (Hinv1 j Hj Hji). rewrite Hjp in *. lia.
  - exists a'. simpl in *. destruct Hex as (Hl1 & _ & _ & Hk1 & Hperm1).
    repeat split; auto.
    + congruence.
    + now rewrite Hperm.
    + intros k Hk. rewrite Hfr by lia. apply Hk1; lia.
Qed.

(** A permutation of the array that fixes the cells from [n] on permutes
    the first [n] cells. *)
Lemma take_Permutation (a a' : list cell) (n : Z) :
  a' ≡ₚ a ->
  (forall k, n <= k -> a' !! Z.to_nat k = a !! Z.to_nat k) -> 0 <= n ->
  take (Z.to_nat n) a' ≡ₚ take (Z.to_nat n) a.
Proof.
  intros Hp Hk Hn.
  assert (Hd : drop (Z.to_nat n) a' = drop (Z.to_nat n) a).
  { apply list_eq. intros k. rewrite !lookup_drop.
    specialize (Hk (n + Z.of_nat k) ltac:(lia)).
    replace (Z.to_nat (n + Z.of_nat k)) with (Z.to_nat n + k)%nat in Hk by lia.
    exact Hk. }
  rewrite <- (take_drop (Z.to_nat n) a'), <- (take_drop (Z.to_nat n) a), Hd in Hp.
  now apply Permutation_app_inv_r in Hp.
Qed.

(** ** insert *)

Lemma insert_spec e p h :
  heap_inv h -> hSize h < hCapacity h ->
  exists h', insert e p h = Ret h' /\ heap_inv h' /\
             hSize h' = hSize h + 1 /\ hCapacity h' = hCapacity h /\
             entries h' ≡ₚ {| element := e; priority := p |} :: entries h.
Proof.
  intros [[Hlen Hsz Hcap Hf] Ho] Hlt. unfold insert.
  set (x := {| element := e; priority := p |}).
  set (n := hSize h) in *.
  rewrite wr_Ret by lia. cbn [bind].
  set (a1 := <[Z.to_nat n := Some x]> (A h)).
  assert (Hf1 : filled a1 (n + 1)).
  { intros k Hk. unfold a1. destruct (decide (k = n)) as [->|Hkn].
    - exists x. apply list_lookup_insert_eq. lia.
    - rewrite list_lookup_insert_ne by lia. apply Hf. lia. }
  assert (Hp1 : forall k, 0 <= k < n -> prio a1 k = prio (A h) k).
  { intros k Hk. unfold prio, a1. now rewrite list_lookup_insert_ne by lia. }
  destruct (trickleUp_rec_spec (S (Z.to_nat n)) n (set_A h a1) (n + 1))
    as (a' & Hr & Hl & Hf' & Ho' & Hperm & Hfr); simpl.
  - lia.
  - lia.
  - unfold INT_MAX in *. lia.
  - exact Hf1.
  - split.
    + intros j Hj Hjn. destruct (parent_spec j ltac:(lia)) as [Hpj _].
      rewrite !Hp1 by lia. apply Ho. lia.
    + intros j Hj Hjn _. destruct (parent_spec j ltac:(lia)) as [Hpj _]. lia.
  - unfold trickleUp. rewrite Hr. cbn [bind]. simpl hSize. fold n.
    rewrite int_Ret by (unfold INT_MIN, INT_MAX in *; lia). cbn [bind].
    eexists. split; [reflexivity|]. simpl in *.
    assert (La1 : length a1 = length (A h)) by (unfold a1; apply length_insert).
    repeat split; simpl; auto; try lia.
    unfold entries. simpl. fold n.
    rewrite (take_Permutation a1 a' (n + 1) Hperm Hfr) by lia.
    replace (Z.to_nat (n + 1)) with (S (Z.to_nat n)) by lia.
    rewrite (take_S_r a1 (Z.to_nat n) (Some x))
      by (unfold a1; apply list_lookup_insert_eq; lia).
    unfold a1. rewrite take_insert_ge by lia.
    rewrite omap_app. simpl. now rewrite Permutation_app_comm.
Qed.

(** ** trickleDown *)

Lemma down_inv_done a n k i :
  down_inv a n k i -> 0 <= i ->
  (2 * i + 1 < n -> prio a i <= prio a (2 * i + 1)) ->
  (2 * i + 2 < n -> prio a i <= prio a (2 * i + 2)) ->
  heap_from a n k.
Proof.
  intros [H1 _] Hi Hl Hr j Hj Hk.
  destruct (decide (parent j = i)) as [Hp|Hp]; [|now apply H1].
  rewrite Hp. destruct (parent_child j i ltac:(lia) Hp) as [->| ->]; auto with lia.
Qed.

(** One exchange of [i] with its child [c], the smaller of the
    children, re-establishes the order at [i] and may break it at [c]. *)
Lemma down_inv_step a a' n k i c :
  down_inv a n k i -> exchanged a a' i c ->
  0 <= k <= i -> (c = 2 * i + 1 \/ c = 2 * i + 2) -> c < n ->
  prio a c < prio a i ->
  (2 * i + 1 < n -> prio a c <= prio a (2 * i + 1)) ->
  (2 * i + 2 < n -> prio a c <= prio a (2 * i + 2)) ->
  down_inv a' n k c.
Proof.
  intros [H1 H2] Hex Hk Hc Hcn Hlt Hl Hr.
  destruct (exchanged_prio _ _ _ _ Hex ltac:(lia) ltac:(lia)) as (Qi & Qc & Qk).
  assert (Hpc : parent c = i).
  { destruct Hc as [-> | ->]; [apply parent_left | apply parent_right]; lia. }
  split.
  - intros j Hj Hkj Hjc.
    destruct (parent_spec j ltac:(lia)) as [Hpj _].
    destruct (decide (parent j = i)) as [Hp|Hp].
    + rewrite Hp, Qi.
      destruct (decide (j = c)) as [->|Hne]; [rewrite Qc; lia|].
      rewrite (Qk j) by lia.
      destruct (parent_child j i ltac:(lia) Hp) as [->| ->]; auto with lia.
    + destruct (decide (j = i)) as [->|Hji].
      * rewrite Qi, (Qk (parent i)) by lia.
        apply H2; auto; lia.
      * destruct (decide (j = c)) as [->|Hjc']; [congruence|].
        rewrite (Qk j), (Qk (parent j)) by lia. now apply H1.
  - intros j Hj Hjc Hc1 Hkc. rewrite Hpc, Qi.
    destruct (parent_spec j ltac:(lia)) as [Hpj _].
    rewrite (Qk j) by lia.
    rewrite <- Hjc. apply H1; auto; lia.
Qed.

Lemma trickleDown_rec_spec fuel : forall i h k,
  (Z.to_nat (hSize h - i) < fuel)%nat -> 0 <= k <= i ->
  2 * i + 2 <= INT_MAX -> 0 <= hSize h -> 2 * hSize h <= INT_MAX ->
  filled (A h) (hSize h) -> down_inv (A h) (hSize h) k i ->
  exists a', trickleDown_rec fuel i h = Ret (set_A h a') /\
             length a' = length (A h) /\ filled a' (hSize h) /\
             heap_from a' (hSize h) k /\ a' ≡ₚ A h /\
             (forall j, hSize h <= j -> a' !! Z.to_nat j = A h !! Z.to_nat j).
Proof.
  induction fuel as [|fuel IH]; intros i h k Hfuel Hk Hi Hn0 Hn Hf Hinv; [lia|].
  cbn [trickleDown_rec].
  rewrite (int_Ret (2 * i)) by (unfold INT_MIN, INT_MAX in *; lia). cbn [bind].
  rewrite (int_Ret (2 * i + 1)) by (unfold INT_MIN, INT_MAX in *; lia). cbn [bind].
  rewrite (int_Ret (2 * i + 2)) by (unfold INT_MIN, INT_MAX in *; lia). cbn [bind].
  rewrite (int_Ret (hSize h - 1)) by (unfold INT_MIN, INT_MAX in *; lia). cbn [bind].
  set (n := hSize h) in *.
  assert (Hsame : exists a', Ret h = Ret (set_A h a') /\
             length a' = length (A h) /\ filled a' n /\ a' ≡ₚ A h /\
             (forall j, n <= j -> a' !! Z.to_nat j = A h !! Z.to_nat j) /\ a' = A h).
  { exists (A h). destruct h. repeat split; auto. }
  destruct (Z.gtb_spec (2 * i + 1) (n - 1)) as [Hl|Hl].
  { (* no child *)
    replace (2 * i + 2 >? n - 1) with true by (symmetry; apply Z.gtb_lt; lia).
    cbn [andb]. destruct Hsame as (a' & E & ? & ? & ? & ? & ->).
    exists (A h). repeat split; auto.
    apply (down_inv_done _ _ _ i Hinv); lia. }
  cbn [andb].
  destruct (rd_filled _ _ i Hf ltac:(lia)) as [ai Hai].
  destruct (rd_filled _ _ (2 * i + 1) Hf ltac:(lia)) as [al Hal].
  pose proof (rd_prio _ _ _ Hai) as Pi. pose proof (rd_prio _ _ _ Hal) as Pl.
  destruct (Z.gtb_spec (2 * i + 2) (n - 1)) as [Hr|Hr].
  { (* a left child only *)
    rewrite Hai, Hal. cbn [bind].
    destruct (Z.gtb_spec (priority ai) (priority al)) as [Hgt|Hle].
    - destruct (swap_spec h i (2 * i + 1) ai al Hai Hal) as (a1 & Hs & Hex).
      rewrite Hs. exists a1.
      pose proof Hex as (Hl1 & _ & _ & Hk1 & Hperm1).
      repeat split; auto.
      + eapply exchanged_filled; eauto; lia.
      + apply (down_inv_done _ _ _ (2 * i + 1)); try lia.
        eapply down_inv_step; eauto; try lia.
      + intros j Hj. apply Hk1; lia.
    - replace (2 * i + 2 <? n) with false by (symmetry; apply Z.ltb_ge; lia).
      rewrite andb_false_r. destruct Hsame as (a' & E & ? & ? & ? & ? & ->).
      exists (A h). repeat split; auto.
      apply (down_inv_done _ _ _ i Hinv); lia. }
  (* two children *)
  cbn [bind].
  replace (2 * i + 1 <? n) with true by (symmetry; apply Z.ltb_lt; lia).
  replace (2 * i + 2 <? n) with true by (symmetry; apply Z.ltb_lt; lia).
  cbn [andb].
  destruct (rd_filled _ _ (2 * i + 2) Hf ltac:(lia)) as [ar Har].
  pose proof (rd_prio _ _ _ Har) as Pr.
  rewrite Hai, Hal. cbn [bind].
  assert (Hgo : forall c ac, (c = 2 * i + 1 \/ c = 2 * i + 2) ->
            rd (A h) c = Ret ac -> priority ac < priority ai ->
            (prio (A h) c <= prio (A h) (2 * i + 1)) ->
            (prio (A h) c <= prio (A h) (2 * i + 2)) ->
            exists a', (do h1 <- swap i c h ;; trickleDown_rec fuel c h1)
                       = Ret (set_A h a') /\
              length a' = length (A h) /\ filled a' n /\ heap_from a' n k /\
              a' ≡ₚ A h /\
              (forall j, n <= j -> a' !! Z.to_nat j = A h !! Z.to_nat j)).
  { intros c ac Hc Hac Hlt Hcl Hcr.
    pose proof (rd_prio _ _ _ Hac) as Pc.
    destruct (swap_spec h i c ai ac Hai Hac) as (a1 & Hs & Hex).
    rewrite Hs. cbn [bind].
    pose proof Hex as (Hl1 & _ & _ & Hk1 & Hperm1).
    destruct (IH c (set_A h a1) k) as (a' & Hr' & Hl' & Hf' & Ho' & Hperm' & Hfr');
      simpl; fold n; try lia.
    - eapply exchanged_filled; eauto; lia.
    - eapply down_inv_step; eauto; lia.
    - exists a'. simpl in *. repeat split; auto.
      + congruence.
      + now rewrite Hperm'.
      + intros j Hj. rewrite Hfr' by lia. apply Hk1; lia. }
  destruct (Z.leb_spec (priority ai) (priority al)) as [Hil|Hil].
  - rewrite Har. cbn [bind].
    destruct (Z.leb_spec (priority ai) (priority ar)) as [Hir|Hir].
    + destruct Hsame as (a' & E & ? & ? & ? & ? & ->).
      exists (A h). repeat split; auto.
      apply (down_inv_done _ _ _ i Hinv); lia.
    + destruct (Z.gtb_spec (priority al) (priority ar)) as [Hlr|Hlr].
      * apply (Hgo (2 * i + 2) ar); auto; lia.
      * lia.
  - cbn [bind]. rewrite Har. cbn [bind].
    destruct (Z.gtb_spec (priority al) (priority ar)) as [Hlr|Hlr].
    + apply (Hgo (2 * i + 2) ar); auto; lia.
    + apply (Hgo (2 * i + 1) al); auto; lia.
Qed.

(** ** extractMin *)

Lemma heap_from_0 a n : heap_from a n 0 <-> heap_ordered a n.
Proof.
  split; intros H j Hj; [|intros _]; apply H; auto.
  destruct (parent_spec j ltac:(lia)). lia.
Qed.

Lemma root_minimal a n :
  heap_ordered a n -> forall j, 0 <= j < n -> prio a 0 <= prio a j.
Proof.
  intros Ho j. pattern j. apply (well_founded_induction (Z.lt_wf 0)).
  clear j. intros j IH Hj.
  destruct (decide (j = 0)) as [->|Hj0]; [lia|].
  destruct (parent_spec j ltac:(lia)) as [Hp _].
  specialize (IH (parent j) ltac:(lia) ltac:(lia)).
  specialize (Ho j ltac:(lia)). lia.
Qed.

Lemma elem_of_entries h x :
  x ∈ entries h ->
  exists i, 0 <= i < hSize h /\ A h !! Z.to_nat i = Some (Some x).
Proof.
  unfold entries. intros Hx.
  apply list_elem_of_omap in Hx as (c & Hc & Hcx).
  destruct c as [y|]; simpl in Hcx; [|discriminate]. inversion Hcx; subst.
  apply list_elem_of_lookup in Hc as [k Hk].
  apply lookup_take_Some in Hk as [Hk Hlt].
  exists (Z.of_nat k). rewrite Nat2Z.id. split; [lia | assumption].
Qed.

Lemma extractMin_spec h :
  heap_inv h -> 0 < hSize h ->
  exists a0 h',
    rd (A h) 0 = Ret a0 /\ extractMin h = Ret (element a0, h') /\
    heap_inv h' /\ hSize h' = hSize h - 1 /\ hCapacity h' = hCapacity h /\
    entries h ≡ₚ a0 :: entries h' /\
    (forall x, x ∈ entries h -> priority a0 <= priority x).
Proof.
  intros [[Hlen Hsz Hcap Hf] Ho] Hpos. unfold extractMin.
  set (n := hSize h) in *.
  destruct (rd_filled _ _ 0 Hf ltac:(lia)) as [a0 Ha0].
  destruct (rd_filled _ _ (n - 1) Hf ltac:(lia)) as [al Hal].
  exists a0. rewrite Ha0. cbn [bind].
  rewrite (int_Ret (n - 1)) by (unfold INT_MIN, INT_MAX in *; lia). cbn [bind].
  rewrite Hal. cbn [bind].
  rewrite wr_Ret by lia. cbn [bind].
  set (a1 := <[Z.to_nat 0 := Some al]> (A h)).
  set (h1 := set_hSize (set_A h a1) (n - 1)).
  assert (La1 : length a1 = length (A h)) by (unfold a1; apply length_insert).
  assert (Hp1 : forall k, 1 <= k -> prio a1 k = prio (A h) k).
  { intros k Hk. unfold prio, a1. now rewrite list_lookup_insert_ne by lia. }
  assert (Hf1 : filled a1 (n - 1)).
  { intros k Hk. unfold a1. destruct (decide (k = 0)) as [->|Hk0].
    - exists al. apply list_lookup_insert_eq. lia.
    - rewrite list_lookup_insert_ne by lia. apply Hf. lia. }
  destruct (trickleDown_rec_spec (S (Z.to_nat (hSize h1 - 0))) 0 h1 0)
    as (a' & Hr & Hl & Hf' & Ho' & Hperm & Hfr); simpl; fold n;
    try (unfold INT_MAX in *; lia); auto.
  { split.
    - intros j Hj _ Hpj. destruct (parent_spec j ltac:(lia)) as [Hp _].
      rewrite !Hp1 by lia. apply Ho. lia.
    - intros; lia. }
  unfold trickleDown. rewrite Hr. cbn [bind].
  eexists. split; [reflexivity|]. split; [reflexivity|].
  simpl in *. fold n in Hf', Ho', Hfr.
  split; [|split; [reflexivity|split; [reflexivity|split]]].
  - split; [constructor; simpl; auto; lia|]. simpl. now apply heap_from_0.
  - unfold entries. simpl. fold n.
    rewrite (take_Permutation a1 a' (n - 1) Hperm Hfr) by lia.
    apply rd_Ret in Ha0 as [_ Ha0]. apply rd_Ret in Hal as [_ Hal].
    destruct (A h) as [|c0 rest] eqn:EA; [discriminate|].
    simpl in Ha0. inversion Ha0; subst c0.
    replace (Z.to_nat n) with (S (Z.to_nat (n - 1))) by lia.
    unfold a1. simpl.
    destruct (Z.to_nat (n - 1)) as [|m] eqn:Em; [reflexivity|].
    replace (Z.to_nat (n - 1)) with (S m) in Hal by lia. simpl in Hal.
    rewrite (take_S_r rest m (Some al)) by assumption.
    simpl. rewrite omap_app. simpl.
    constructor. now rewrite <- Permutation_cons_append.
  - intros x Hx. apply elem_of_entries in Hx as (i & Hi & Hx).
    pose proof (root_minimal _ _ Ho i Hi) as Hmin.
    rewrite (rd_prio _ _ _ Ha0) in Hmin. unfold prio in Hmin.
    now rewrite Hx in Hmin.
Qed.

(** ** Empty heaps, sequences of insertions and of extractions *)

Lemma new_Pair_Ret n :
  0 <= n -> new_Pair n = Ret (replicate (Z.to_nat n) None).
Proof.
  intros Hn. unfold new_Pair.
  now replace (n <? 0) with false by (symmetry; apply Z.ltb_ge; lia).
Qed.

Lemma new_heap_inv n c :
  0 <= c -> 2 * c <= INT_MAX ->
  n = c ->
  heap_inv {| A := replicate (Z.to_nat n) None; hCapacity := c; hSize := 0 |}.
Proof.
  intros Hc Hm ->. split; [constructor|]; simpl.
  - rewrite length_replicate. lia.
  - lia.
  - assumption.
  - intros i Hi. lia.
  - intros i Hi. lia.
Qed.

Lemma Heap_capacity_spec c :
  0 <= c -> 2 * c <= INT_MAX ->
  exists h, Heap_capacity c = Ret h /\ heap_inv h /\ hSize h = 0 /\
            hCapacity h = c /\ entries h = [].
Proof.
  intros Hc Hm. unfold Heap_capacity. rewrite new_Pair_Ret by assumption.
  eexists. split; [reflexivity|].
  split; [now apply new_heap_inv|]. repeat split.
Qed.

Lemma Heap_default_spec :
  exists h, Heap_default = Ret h /\ heap_inv h /\ hSize h = 0 /\
            hCapacity h = 10 /\ entries h = [].
Proof.
  eexists. split; [reflexivity|].
  split; [apply new_heap_inv; unfold INT_MAX; lia|]. repeat split.
Qed.

Lemma insert_all_spec xs : forall h,
  heap_inv h -> hSize h + Z.of_nat (length xs) <= hCapacity h ->
  exists h', insert_all xs h = Ret h' /\ heap_inv h' /\
             hSize h' = hSize h + Z.of_nat (length xs) /\
             hCapacity h' = hCapacity h /\
             entries h' ≡ₚ entries h ++ xs.
Proof.
  induction xs as [|x xs IH]; intros h Hinv Hcap; simpl in *.
  - exists h. rewrite app_nil_r. split_and!; auto. lia.
  - destruct (insert_spec (element x) (priority x) h Hinv ltac:(lia))
      as (h1 & E1 & Hinv1 & Hs1 & Hc1 & Hp1).
    rewrite E1. cbn [bind].
    destruct (IH h1 Hinv1 ltac:(lia)) as (h' & E & Hinv' & Hs & Hc & Hp).
    exists h'. split_and!; auto; try lia.
    rewrite Hp, Hp1. destruct x; simpl.
    now rewrite Permutation_middle.
Qed.

Lemma peekMinPriority_spec h a0 :
  rd (A h) 0 = Ret a0 -> peekMinPriority h = Ret (priority a0).
Proof. intros H. unfold peekMinPriority. now rewrite H. Qed.

Lemma peekMin_spec h a0 :
  rd (A h) 0 = Ret a0 -> peekMin h = Ret (element a0).
Proof. intros H. unfold peekMin. now rewrite H. Qed.

Lemma extract_all_spec n : forall h,
  heap_inv h -> hSize h = Z.of_nat n ->
  exists out h', extract_all n h = Ret (out, h') /\
                 extract_elements n h = Ret (map element out, h') /\
                 out ≡ₚ entries h /\ StronglySorted by_priority out /\
                 heap_inv h' /\ hSize h' = 0 /\ hCapacity h' = hCapacity h.
Proof.
  induction n as [|n IH]; intros h Hinv Hn; simpl.
  - exists [], h. split_and!; auto; try constructor.
    unfold entries. now rewrite Hn.
  - destruct (extractMin_spec h Hinv ltac:(lia))
      as (a0 & h1 & Ha0 & E & Hinv1 & Hs1 & Hc1 & Hp1 & Hmin).
    rewrite (peekMinPriority_spec h a0 Ha0), E. cbn [bind fst snd].
    destruct (IH h1 Hinv1 ltac:(lia))
      as (out & h' & E1 & E2 & Hp & Hsort & Hinv' & Hs & Hc).
    rewrite E1, E2. cbn [bind fst snd].
    exists (a0 :: out), h'. destruct a0 as [e0 p0]; simpl in *.
    split_and!; auto; try congruence.
    + now rewrite Hp1, Hp.
    + constructor; [assumption|].
      apply Forall_forall. intros x Hx. unfold by_priority. simpl.
      apply (Hmin x). rewrite Hp1, <- Hp. now right.
Qed.

(** ** heapify *)

Lemma heap_from_half a n : 0 <= n -> heap_from a n (n ÷ 2).
Proof.
  intros Hn j Hj Hp. exfalso.
  destruct (parent_spec j ltac:(lia)) as [_ Hc].
  rewrite Z.quot_div_nonneg in Hp by lia.
  pose proof (Z.div_mod n 2 ltac:(lia)).
  pose proof (Z.mod_pos_bound n 2 ltac:(lia)). lia.
Qed.

Lemma trickleDown_spec i h k :
  0 <= k <= i -> 2 * i + 2 <= INT_MAX -> 0 <= hSize h -> 2 * hSize h <= INT_MAX ->
  filled (A h) (hSize h) -> down_inv (A h) (hSize h) k i ->
  exists a', trickleDown i h = Ret (set_A h a') /\
             length a' = length (A h) /\ filled a' (hSize h) /\
             heap_from a' (hSize h) k /\ a' ≡ₚ A h /\
             (forall j, hSize h <= j -> a' !! Z.to_nat j = A h !! Z.to_nat j).
Proof. intros. apply trickleDown_rec_spec; auto. Qed.

Lemma heapify_loop_spec k : forall h,
  2 * Z.of_nat k <= hSize h -> 2 * hSize h <= INT_MAX ->
  filled (A h) (hSize h) -> heap_from (A h) (hSize h) (Z.of_nat k) ->
  exists a', heapify_loop k h = Ret (set_A h a') /\
             length a' = length (A h) /\ filled a' (hSize h) /\
             heap_ordered a' (hSize h) /\ a' ≡ₚ A h /\
             (forall j, hSize h <= j -> a' !! Z.to_nat j = A h !! Z.to_nat j).
Proof.
  induction k as [|k IH]; intros h Hk Hn Hf Ho.
  - exists (A h). simpl. destruct h. split_and!; auto. now apply heap_from_0.
  - cbn [heapify_loop].
    destruct (trickleDown_spec (Z.of_nat k) h (Z.of_nat k))
      as (a1 & E1 & Hl1 & Hf1 & Ho1 & Hp1 & Hfr1); try lia; auto.
    { split.
      - intros j Hj Hkj Hne. apply Ho; auto. lia.
      - intros j Hj Hp H1 Hkp. destruct (parent_spec (Z.of_nat k) H1). lia. }
    rewrite E1. cbn [bind].
    destruct (IH (set_A h a1)) as (a' & E & Hl & Hf' & Ho' & Hp & Hfr);
      simpl; auto; try lia.
    exists a'. simpl in *. split_and!; auto.
    + congruence.
    + now rewrite Hp.
    + intros j Hj. rewrite Hfr by lia. now apply Hfr1.
Qed.

Lemma heapify_spec h :
  0 <= hSize h -> 2 * hSize h <= INT_MAX -> filled (A h) (hSize h) ->
  exists a', heapify h = Ret (set_A h a') /\
             length a' = length (A h) /\ filled a' (hSize h) /\
             heap_ordered a' (hSize h) /\ a' ≡ₚ A h /\
             (forall j, hSize h <= j -> a' !! Z.to_nat j = A h !! Z.to_nat j).
Proof.
  intros H0 Hn Hf. unfold heapify.
  assert (Hq : 0 <= hSize h ÷ 2 /\ 2 * (hSize h ÷ 2) <= hSize h).
  { rewrite Z.quot_div_nonneg by lia.
    pose proof (Z.div_mod (hSize h) 2 ltac:(lia)).
    pose proof (Z.mod_pos_bound (hSize h) 2 ltac:(lia)). lia. }
  rewrite (int_Ret (hSize h ÷ 2)) by (unfold INT_MIN, INT_MAX in *; lia). cbn [bind].
  rewrite (int_Ret (hSize h ÷ 2 - 1)) by (unfold INT_MIN, INT_MAX in *; lia). cbn [bind].
  apply heapify_loop_spec; auto.
  - lia.
  - replace (Z.of_nat (Z.to_nat (hSize h ÷ 2 - 1 + 1))) with (hSize h ÷ 2) by lia.
    now apply heap_from_half.
Qed.

(** ** The merging constructor *)

Lemma copy_cells_spec k : forall src i dst off,
  0 <= i -> 0 <= off -> filled src (i + Z.of_nat k) ->
  off + i + Z.of_nat k <= Z.of_nat (length dst) ->
  copy_cells k src i dst off =
    Ret (take (Z.to_nat (off + i)) dst ++ take k (drop (Z.to_nat i) src)
         ++ drop (Z.to_nat (off + i) + k) dst).
Proof.
  induction k as [|k IH]; intros src i dst off Hi Hoff Hf Hlen.
  - simpl. now rewrite Nat.add_0_r, take_drop.
  - cbn [copy_cells].
    destruct (Hf i ltac:(lia)) as [p Hp].
    assert (Hrd : rd src i = Ret p) by (apply rd_Ret; auto).
    rewrite Hrd. cbn [bind]. rewrite wr_Ret by lia. cbn [bind].
    rewrite IH; try lia.
    + f_equal.
      replace (Z.to_nat (off + (i + 1))) with (S (Z.to_nat (off + i))) by lia.
      replace (Z.to_nat (i + 1)) with (S (Z.to_nat i)) by lia.
      rewrite (take_S_r _ _ (Some p)) by (apply list_lookup_insert_eq; lia).
      rewrite take_insert_ge by lia.
      rewrite drop_insert_lt by lia.
      rewrite (drop_S src (Some p) (Z.to_nat i)) by assumption.
      rewrite <- app_assoc. simpl.
      now replace (Z.to_nat (off + i) + S k)%nat
        with (S (Z.to_nat (off + i) + k)) by lia.
    + intros j Hj. apply Hf. lia.
    + rewrite length_insert. lia.
Qed.

Lemma std_copy_spec src n dst off :
  0 <= n -> 0 <= off -> filled src n -> off + n <= Z.of_nat (length dst) ->
  std_copy src n dst off =
    Ret (take (Z.to_nat off) dst ++ take (Z.to_nat n) src
         ++ drop (Z.to_nat off + Z.to_nat n) dst).
Proof.
  intros Hn Hoff Hf Hlen. unfold std_copy.
  replace (n <? 0) with false by (symmetry; apply Z.ltb_ge; lia).
  rewrite copy_cells_spec; try lia.
  - now rewrite Z.add_0_r, drop_0.
  - now rewrite Z2Nat.id by lia.
Qed.

Lemma filled_take_length a n :
  filled a n -> 0 <= n -> length (take (Z.to_nat n) a) = Z.to_nat n.
Proof.
  intros Hf Hn. rewrite length_take. pose proof (filled_length _ _ Hf). lia.
Qed.

Lemma Heap_merge_spec Heap1 Heap2 c :
  heap_wf Heap1 -> heap_wf Heap2 -> 0 <= c ->
  2 * (hSize Heap1 + hSize Heap2 + c) <= INT_MAX ->
  exists h, Heap_merge Heap1 Heap2 c = Ret h /\ heap_inv h /\
            hSize h = hSize Heap1 + hSize Heap2 /\
            hCapacity h = hSize Heap1 + hSize Heap2 + c /\
            entries h ≡ₚ entries Heap1 ++ entries Heap2.
Proof.
  intros [_ Hs1 _ Hf1] [_ Hs2 _ Hf2] Hc Hmax. unfold Heap_merge.
  set (s1 := hSize Heap1) in *. set (s2 := hSize Heap2) in *.
  rewrite (int_Ret (s1 + s2)) by (unfold INT_MIN, INT_MAX in *; lia). cbn [bind].
  rewrite (int_Ret (s1 + s2 + c)) by (unfold INT_MIN, INT_MAX in *; lia). cbn [bind].
  rewrite new_Pair_Ret by lia. cbn [bind].
  set (a := replicate (Z.to_nat (s1 + s2 + c)) None).
  assert (La : length a = Z.to_nat (s1 + s2 + c)) by apply length_replicate.
  pose proof (filled_take_length _ _ Hf1 ltac:(lia)) as L1.
  pose proof (filled_take_length _ _ Hf2 ltac:(lia)) as L2.
  rewrite std_copy_spec; auto; try lia. cbn [bind]. simpl take. simpl app.
  set (a1 := take (Z.to_nat s1) (A Heap1) ++ drop (Z.to_nat s1) a).
  assert (La1 : length a1 = length a).
  { unfold a1. rewrite length_app, length_drop, L1. lia. }
  rewrite std_copy_spec; auto; try lia. cbn [bind].
  replace (take (Z.to_nat s1) a1) with (take (Z.to_nat s1) (A Heap1))
    by (unfold a1; rewrite take_app_length'; auto).
  set (rest := drop (Z.to_nat s1 + Z.to_nat s2) a1).
  set (a2 := take (Z.to_nat s1) (A Heap1) ++ take (Z.to_nat s2) (A Heap2) ++ rest).
  assert (La2 : length a2 = length a).
  { unfold a2, rest. rewrite !length_app, length_drop, L1, L2. lia. }
  assert (Ht : take (Z.to_nat (s1 + s2)) a2
               = take (Z.to_nat s1) (A Heap1) ++ take (Z.to_nat s2) (A Heap2)).
  { unfold a2. rewrite app_assoc. apply take_app_length'.
    rewrite length_app, L1, L2. lia. }
  assert (Hf : filled a2 (s1 + s2)).
  { intros i Hi.
    rewrite <- (lookup_take_lt a2 (Z.to_nat (s1 + s2))) by lia. rewrite Ht.
    destruct (Z_lt_ge_dec i s1) as [Hlt|Hge].
    - rewrite lookup_app_l by lia. rewrite lookup_take_lt by lia. apply Hf1. lia.
    - rewrite lookup_app_r by lia. rewrite L1, lookup_take_lt by lia.
      replace (Z.to_nat i - Z.to_nat s1)%nat with (Z.to_nat (i - s1)) by lia.
      apply Hf2. lia. }
  destruct (heapify_spec {| A := a2; hCapacity := s1 + s2 + c; hSize := s1 + s2 |})
    as (a' & E & Hl & Hf' & Ho & Hp & Hfr); simpl; auto; try lia.
  rewrite E. eexists. split; [reflexivity|]. simpl in *.
  split_and!; auto.
  - split; [constructor; simpl; auto; lia|]. exact Ho.
  - unfold entries. simpl.
    rewrite (take_Permutation a2 a' (s1 + s2) Hp Hfr) by lia.
    now rewrite Ht, omap_app.
Qed.

(** ** Termination: the budgets of calls are never exhausted *)

Create HintDb halting.
#[local] Hint Resolve int_halts rd_halts wr_halts swap_halts : halting.

(** A run that is known not to exhaust its budget cannot be [OutOfFuel]. *)
Ltac no_fuel_case :=
  match goal with
  | H : ?m = OutOfFuel |- _ =>
      exfalso; revert H; change (halts m); solve [auto with halting]
  end.

Ltac same_or_halt :=
  cbn [bind]; try no_fuel_case; try (split; [reflexivity | discriminate]).

(** Case analysis on what the two runs compared in a goal do next. *)
Ltac head_case :=
  match goal with
  | |- bind (if ?b then _ else _) _ = _ /\ _ => destruct b eqn:?
  | |- bind (bind ?m _) _ = _ /\ _ => destruct m eqn:?
  | |- bind ?m _ = bind ?m _ /\ _ => destruct m eqn:?
  | |- (if ?b then _ else _) = (if ?b then _ else _) /\ _ => destruct b eqn:?
  end.

Ltac harvest :=
  repeat match goal with
  | H : int _ = Ret _ |- _ => apply int_inv in H as [-> _]
  | H : rd _ _ = Ret _ |- _ => apply rd_Ret in H as [? _]
  | H : swap _ _ _ = Ret _ |- _ => apply swap_inv in H as (? & -> & _)
  | H : (_ <? _) && (_ <? _) = true |- _ =>
      apply andb_true_iff in H as [?%Z.ltb_lt ?%Z.ltb_lt]
  end.

(** Halting of a sequence of steps, from the halting of each. *)
Ltac halting :=
  repeat (apply bind_halts; [auto with halting | intros ? _]); auto with halting.

Lemma trickleUp_rec_fuel f1 : forall f2 i h,
  (Z.to_nat i < f1)%nat -> (Z.to_nat i < f2)%nat ->
  trickleUp_rec f1 i h = trickleUp_rec f2 i h /\ halts (trickleUp_rec f1 i h).
Proof.
  unfold halts.
  induction f1 as [|f1 IH]; intros [|f2] i h H1 H2; try lia.
  cbn [trickleUp_rec].
  destruct (Z.eqb_spec i 0) as [E0|E0]; same_or_halt.
  destruct (rd (A h) i) as [ai| | |] eqn:Ei; same_or_halt.
  destruct (int (i - 1)) as [i1| | |] eqn:E1; same_or_halt.
  destruct (int (i1 ÷ 2)) as [par| | |] eqn:E2; same_or_halt.
  destruct (rd (A h) par) as [ap| | |] eqn:Ep; same_or_halt.
  destruct (priority ai >=? priority ap); same_or_halt.
  destruct (swap i par h) as [h1| | |] eqn:Es; same_or_halt.
  apply rd_Ret in Ei as [Hi _].
  apply int_inv in E1 as [-> _]. apply int_inv in E2 as [-> _].
  destruct (parent_spec i ltac:(lia)) as [Hp _]. unfold parent in Hp.
  apply IH; lia.
Qed.

Lemma trickleDown_rec_fuel f1 : forall f2 i h,
  (Z.to_nat (hSize h - i) < f1)%nat -> (Z.to_nat (hSize h - i) < f2)%nat ->
  trickleDown_rec f1 i h = trickleDown_rec f2 i h /\
  halts (trickleDown_rec f1 i h).
Proof.
  unfold halts.
  induction f1 as [|f1 IH]; intros [|f2] i h H1 H2; try lia.
  cbn [trickleDown_rec].
  repeat (head_case; same_or_halt);
    try (split; [reflexivity | apply swap_halts]);
    harvest; apply IH; simpl; lia.
Qed.

Lemma trickleUp_halts i h : halts (trickleUp i h).
Proof. apply (trickleUp_rec_fuel _ (S (Z.to_nat i))); lia. Qed.

Lemma trickleUp_fuel i h fuel :
  (Z.to_nat i < fuel)%nat -> trickleUp_rec fuel i h = trickleUp i h.
Proof. intros H. apply trickleUp_rec_fuel; lia. Qed.

Lemma trickleDown_halts i h : halts (trickleDown i h).
Proof. apply (trickleDown_rec_fuel _ (S (Z.to_nat (hSize h - i)))); lia. Qed.

Lemma trickleDown_fuel i h fuel :
  (Z.to_nat (hSize h - i) < fuel)%nat ->
  trickleDown_rec fuel i h = trickleDown i h.
Proof. intros H. apply trickleDown_rec_fuel; lia. Qed.

Lemma Ret_halts {T} (t : T) : halts (Ret t).
Proof. discriminate. Qed.

Lemma Undefined_halts {T} f : halts (@Undefined T f).
Proof. discriminate. Qed.

Lemma Throw_halts {T} e : halts (@Throw T e).
Proof. discriminate. Qed.

Lemma new_Pair_halts n : halts (new_Pair n).
Proof. unfold halts, new_Pair. destruct (n <? 0); discriminate. Qed.

Lemma rd_int_halts a i : halts (rd_int a i).
Proof.
  unfold halts, rd_int. destruct (in_bounds a i); [|discriminate].
  destruct (a !! Z.to_nat i); discriminate.
Qed.

#[local] Hint Resolve trickleUp_halts
  trickleDown_halts Ret_halts Undefined_halts Throw_halts new_Pair_halts rd_int_halts
  : halting.

Lemma insert_halts e p h : halts (insert e p h).
Proof. unfold insert. halting. Qed.

Lemma extractMin_halts h : halts (extractMin h).
Proof. unfold extractMin. halting. Qed.

Lemma heapify_loop_halts k : forall h, halts (heapify_loop k h).
Proof. induction k as [|k IH]; intros h; cbn [heapify_loop]; halting. Qed.

#[local] Hint Resolve insert_halts extractMin_halts heapify_loop_halts : halting.

Lemma heapify_halts h : halts (heapify h).
Proof. unfold heapify. halting. Qed.

Lemma insert_arrays_halts k : forall i P E h, halts (insert_arrays k i P E h).
Proof.
  induction k as [|k IH]; intros i P E h; cbn [insert_arrays]; halting.
Qed.

Lemma copy_cells_halts k : forall src i dst off, halts (copy_cells k src i dst off).
Proof. induction k as [|k IH]; intros; cbn [copy_cells]; halting. Qed.

Lemma std_copy_halts src n dst off : halts (std_copy src n dst off).
Proof.
  unfold std_copy. destruct (n <? 0); [discriminate | apply copy_cells_halts].
Qed.

#[local] Hint Resolve heapify_halts insert_arrays_halts std_copy_halts : halting.

Lemma Heap_arrays_halts n P E s c : halts (Heap_arrays n P E s c).
Proof. unfold Heap_arrays. halting. Qed.

Lemma Heap_merge_halts Heap1 Heap2 c : halts (Heap_merge Heap1 Heap2 c).
Proof. unfold Heap_merge. halting. Qed.

Lemma Heap_capacity_halts c : halts (Heap_capacity c).
Proof. unfold Heap_capacity. halting. Qed.

(** ** The cells insert may change *)

Lemma ancestor_within_fuel n : forall m j i,
  (Z.to_nat i <= n)%nat -> (Z.to_nat i <= m)%nat ->
  ancestor_within n j i = ancestor_within m j i.
Proof.
  induction n as [|n IH]; intros [|m] j i Hn Hm; simpl; auto.
  - destruct (Z.leb_spec 1 i); [lia | reflexivity].
  - destruct (Z.leb_spec 1 i); [lia | reflexivity].
  - destruct (Z.leb_spec 1 i) as [Hi|Hi]; [|reflexivity]. simpl.
    destruct (parent_spec i Hi) as [Hp _].
    f_equal. apply IH; lia.
Qed.

Lemma is_ancestor_unfold j i :
  is_ancestor j i = (1 <=? i) && ((j =? parent i) || is_ancestor j (parent i)).
Proof.
  unfold is_ancestor. destruct (Z.to_nat i) as [|n] eqn:En; simpl.
  - destruct (Z.leb_spec 1 i); [lia | reflexivity].
  - destruct (Z.leb_spec 1 i) as [Hi|Hi]; [|reflexivity]. simpl.
    destruct (parent_spec i Hi) as [Hp _].
    f_equal. apply ancestor_within_fuel; lia.
Qed.

Lemma is_ancestor_spec j i : is_ancestor j i = true <-> proper_ancestor j i.
Proof.
  split.
  - revert j. pattern i. apply (well_founded_induction (Z.lt_wf 0)).
    clear i. intros i IH j. rewrite is_ancestor_unfold.
    intros [Hi%Z.leb_le [Hj%Z.eqb_eq | Hj]%orb_true_iff]%andb_true_iff.
    + subst. now constructor.
    + apply ancestor_further; [assumption|].
      destruct (parent_spec i Hi). apply IH; [lia | assumption].
  - induction 1 as [i Hi | j i Hi _ IH]; rewrite is_ancestor_unfold.
    + apply andb_true_iff. split; [now apply Z.leb_le|].
      apply orb_true_iff. left. apply Z.eqb_refl.
    + apply andb_true_iff. split; [now apply Z.leb_le|].
      apply orb_true_iff. now right.
Qed.

Lemma trickleUp_rec_frame fuel : forall i h h',
  trickleUp_rec fuel i h = Ret h' ->
  hCapacity h' = hCapacity h /\ hSize h' = hSize h /\
  forall j, 0 <= j -> j <> i -> is_ancestor j i = false ->
            A h' !! Z.to_nat j = A h !! Z.to_nat j.
Proof.
  induction fuel as [|fuel IH]; intros i h h'; [discriminate|].
  cbn [trickleUp_rec].
  destruct (Z.eqb_spec i 0) as [E0|E0].
  { intros E. inversion E. auto. }
  intros (ai & Hai & E)%bind_Ret_inv.
  apply bind_Ret_inv in E as (i1 & [-> _]%int_inv & E).
  apply bind_Ret_inv in E as (par & [-> _]%int_inv & E).
  apply bind_Ret_inv in E as (ap & Hap & E).
  destruct (priority ai >=? priority ap).
  { inversion E. auto. }
  apply bind_Ret_inv in E as (h1 & Hs & E).
  apply swap_inv in Hs as (a1 & -> & (_ & _ & _ & Hk & _) & _).
  apply IH in E as (Hc & Hz & Hfr). simpl in *.
  split_and!; auto. intros j Hj Hji Hanc.
  rewrite is_ancestor_unfold in Hanc. fold (parent i) in *.
  apply rd_Ret in Hai as [Hi _].
  replace (1 <=? i) with true in Hanc by (symmetry; apply Z.leb_le; lia).
  simpl in Hanc. apply orb_false_iff in Hanc as [Hjp%Z.eqb_neq Hanc].
  rewrite Hfr by auto. now apply Hk.
Qed.

Lemma insert_frame e p h h' :
  insert e p h = Ret h' ->
  hCapacity h' = hCapacity h /\
  forall j : nat, Z.of_nat j <> hSize h ->
                  is_ancestor (Z.of_nat j) (hSize h) = false ->
                  A h' !! j = A h !! j.
Proof.
  unfold insert.
  intros (a1 & [Hn ->]%wr_inv & E)%bind_Ret_inv.
  apply bind_Ret_inv in E as (h1 & Hup & E).
  apply bind_Ret_inv in E as (n & _ & E). inversion E; subst; clear E.
  apply trickleUp_rec_frame in Hup as (Hc & _ & Hfr). simpl in *.
  split; [assumption|]. intros j Hj Hanc.
  specialize (Hfr (Z.of_nat j) ltac:(lia) Hj Hanc).
  rewrite Nat2Z.id in Hfr. rewrite Hfr.
  apply list_lookup_insert_ne. lia.
Qed.

(** ** The cases of trickleDown *)

Lemma trickleDown_descend fuel i c h :
  0 <= i < c -> c < hSize h -> (Z.to_nat (hSize h - i) <= fuel)%nat ->
  (do h1 <- swap i c h ;; trickleDown_rec fuel c h1)
  = (do h1 <- swap i c h ;; trickleDown c h1).
Proof.
  intros Hi Hc Hfuel.
  destruct (swap i c h) as [h1| | |] eqn:Es; cbn [bind]; auto.
  apply swap_inv in Es as (a' & -> & _).
  apply trickleDown_fuel. simpl. lia.
Qed.

Lemma trickleDown_unfold i h :
  0 <= i -> 2 * i + 2 <= INT_MAX -> INT_MIN < hSize h <= INT_MAX ->
  trickleDown i h =
    let left := 2 * i + 1 in
    let right := 2 * i + 2 in
    if hSize h <=? left then Ret h
    else if hSize h <=? right then
      do ai <- rd (A h) i ;;
      do al <- rd (A h) left ;;
      if priority al <? priority ai then swap i left h else Ret h
    else
      do ai <- rd (A h) i ;;
      do al <- rd (A h) left ;;
      do ar <- rd (A h) right ;;
      if (priority ai <=? priority al) && (priority ai <=? priority ar)
      then Ret h
      else if priority ar <? priority al
      then do h1 <- swap i right h ;; trickleDown right h1
      else do h1 <- swap i left h ;; trickleDown left h1.
Proof.
  intros Hi Hmax Hn. unfold trickleDown. cbn [trickleDown_rec].
  rewrite (int_Ret (2 * i)) by (unfold INT_MIN, INT_MAX in *; lia). cbn [bind].
  rewrite (int_Ret (2 * i + 1)) by (unfold INT_MIN, INT_MAX in *; lia). cbn [bind].
  rewrite (int_Ret (2 * i + 2)) by (unfold INT_MIN, INT_MAX in *; lia). cbn [bind].
  rewrite (int_Ret (hSize h - 1)) by (unfold INT_MIN, INT_MAX in *; lia). cbn [bind].
  cbv zeta. rewrite !Z.gtb_ltb.
  destruct (Z.leb_spec (hSize h) (2 * i + 1)) as [H1|H1].
  { replace (hSize h - 1 <? 2 * i + 1) with true by (symmetry; apply Z.ltb_lt; lia).
    replace (hSize h - 1 <? 2 * i + 2) with true by (symmetry; apply Z.ltb_lt; lia).
    reflexivity. }
  replace (hSize h - 1 <? 2 * i + 1) with false by (symmetry; apply Z.ltb_ge; lia).
  cbn [andb].
  destruct (Z.leb_spec (hSize h) (2 * i + 2)) as [H2|H2].
  { replace (hSize h - 1 <? 2 * i + 2) with true by (symmetry; apply Z.ltb_lt; lia).
    replace (2 * i + 2 <? hSize h) with false by (symmetry; apply Z.ltb_ge; lia).
    rewrite andb_false_r.
    destruct (rd (A h) i) as [ai| | |]; cbn [bind]; auto.
    destruct (rd (A h) (2 * i + 1)) as [al| | |]; cbn [bind]; auto.
    now rewrite Z.gtb_ltb. }
  replace (hSize h - 1 <? 2 * i + 2) with false by (symmetry; apply Z.ltb_ge; lia).
  cbn [bind].
  replace (2 * i + 1 <? hSize h) with true by (symmetry; apply Z.ltb_lt; lia).
  replace (2 * i + 2 <? hSize h) with true by (symmetry; apply Z.ltb_lt; lia).
  cbn [andb].
  destruct (rd (A h) i) as [ai| | |]; cbn [bind]; auto.
  destruct (rd (A h) (2 * i + 1)) as [al| | |] eqn:El; cbn [bind]; auto.
  rewrite <- !(trickleDown_descend (Z.to_nat (hSize h - i)) i) by lia.
  destruct (priority ai <=? priority al); cbn [andb bind].
  - destruct (rd (A h) (2 * i + 2)) as [ar| | |]; cbn [bind]; auto.
    rewrite Z.gtb_ltb. now destruct (priority ai <=? priority ar).
  - destruct (rd (A h) (2 * i + 2)) as [ar| | |]; cbn [bind]; auto.
    now rewrite Z.gtb_ltb.
Qed.

Lemma int_overflow z : INT_MAX < z -> int z = Undefined Overflow.
Proof.
  intros Hz. unfold int, in_int.
  replace (z <=? INT_MAX) with false by (symmetry; apply Z.leb_gt; lia).
  now rewrite andb_false_r.
Qed.

(** Why the invariant bounds the capacity: at an index whose right child
    index does not fit an [int], [trickleDown] overflows. *)
Lemma trickleDown_overflow i h :
  INT_MAX < 2 * i + 2 -> trickleDown i h = Undefined Overflow.
Proof.
  intros Hi. unfold trickleDown. cbn [trickleDown_rec].
  destruct (Z_le_gt_dec (2 * i) INT_MAX) as [H2|H2].
  2:{ now rewrite int_overflow by lia. }
  rewrite (int_Ret (2 * i)) by (unfold INT_MIN, INT_MAX in *; lia). cbn [bind].
  destruct (Z_le_gt_dec (2 * i + 1) INT_MAX) as [H1|H1].
  2:{ now rewrite int_overflow by lia. }
  rewrite (int_Ret (2 * i + 1)) by (unfold INT_MIN, INT_MAX in *; lia). cbn [bind].
  now rewrite int_overflow by lia.
Qed.

(** ** The array constructor *)

Lemma rd_int_Ret a i z :
  0 <= i -> a !! Z.to_nat i = Some z -> rd_int a i = Ret z.
Proof.
  intros Hi Hz. unfold rd_int. pose proof (lookup_lt_Some _ _ _ Hz).
  replace (in_bounds a i) with true by (symmetry; apply in_bounds_true; lia).
  now rewrite Hz.
Qed.

Lemma rd_int_oob a i :
  Z.of_nat (length a) <= i -> rd_int a i = Undefined OutOfBounds.
Proof.
  intros Hi. unfold rd_int. destruct (in_bounds a i) eqn:Hb; [|reflexivity].
  apply in_bounds_true in Hb. lia.
Qed.

Lemma insert_arrays_insert_all k : forall i P E h,
  0 <= i -> i + Z.of_nat k <= Z.of_nat (length P) ->
  i + Z.of_nat k <= Z.of_nat (length E) ->
  insert_arrays k i P E h =
  insert_all (zip_with mkPair (take k (drop (Z.to_nat i) E))
                              (take k (drop (Z.to_nat i) P))) h.
Proof.
  induction k as [|k IH]; intros i P E h Hi HP HE; [reflexivity|].
  cbn [insert_arrays].
  destruct (lookup_lt_is_Some_2 E (Z.to_nat i) ltac:(lia)) as [e He].
  destruct (lookup_lt_is_Some_2 P (Z.to_nat i) ltac:(lia)) as [p Hp].
  rewrite (rd_int_Ret E i e), (rd_int_Ret P i p) by assumption. cbn [bind].
  rewrite (drop_S E e _ He), (drop_S P p _ Hp). simpl.
  destruct (insert e p h) as [h1| | |]; cbn [bind]; auto.
  rewrite IH by lia. now replace (Z.to_nat (i + 1)) with (S (Z.to_nat i)) by lia.
Qed.

(** When the storage of the object happens to hold 0 in [hSize], the
    constructor is a sequence of insertions into an empty heap. *)
Lemma Heap_arrays_zero P E s c :
  0 <= s -> s <= Z.of_nat (length P) -> s <= Z.of_nat (length E) ->
  INT_MIN <= s + c <= INT_MAX ->
  Heap_arrays 0 P E s c =
  (do h0 <- Heap_capacity (s + c) ;; insert_all (pairs_of P E s) h0).
Proof.
  intros Hs HP HE Hc. unfold Heap_arrays, Heap_capacity, pairs_of.
  rewrite int_Ret by assumption. cbn [bind].
  destruct (new_Pair (s + c)) as [a| | |]; cbn [bind]; auto.
  rewrite insert_arrays_insert_all by lia. reflexivity.
Qed.

Lemma length_pairs_of P E s :
  0 <= s -> s <= Z.of_nat (length P) -> s <= Z.of_nat (length E) ->
  Z.of_nat (length (pairs_of P E s)) = s.
Proof.
  intros Hs HP HE. unfold pairs_of.
  rewrite length_zip_with, !length_take. lia.
Qed.

Lemma Heap_arrays_zero_spec P E s c :
  0 <= s -> s <= Z.of_nat (length P) -> s <= Z.of_nat (length E) ->
  0 <= c -> 2 * (s + c) <= INT_MAX ->
  exists h, Heap_arrays 0 P E s c = Ret h /\ heap_inv h /\ hSize h = s /\
            hCapacity h = s + c /\ entries h ≡ₚ pairs_of P E s.
Proof.
  intros Hs HP HE Hc Hmax.
  rewrite Heap_arrays_zero by (unfold INT_MIN, INT_MAX in *; lia).
  destruct (Heap_capacity_spec (s + c)) as (h0 & E0 & Hinv0 & Hs0 & Hc0 & He0);
    try lia.
  rewrite E0. cbn [bind].
  pose proof (length_pairs_of P E s Hs HP HE) as Hlen.
  destruct (insert_all_spec (pairs_of P E s) h0 Hinv0 ltac:(lia))
    as (h & Eh & Hinv & Hsz & Hcap & Hent).
  exists h. split_and!; auto; try lia.
  now rewrite Hent, He0.
Qed.

(** With any other value there, the first insertion writes outside the
    array or compares the new entry with a cell that was never assigned. *)
Lemma insert_fresh_nonzero e p m cap n :
  n <> 0 -> 0 <= m <= INT_MAX ->
  let h := {| A := replicate (Z.to_nat m) None; hCapacity := cap; hSize := n |} in
  insert e p h = Undefined OutOfBounds \/ insert e p h = Undefined Indeterminate.
Proof.
  intros Hne Hm h. unfold insert, h. cbn [A hSize].
  set (a := replicate (Z.to_nat m) None).
  assert (La : length a = Z.to_nat m) by apply length_replicate.
  destruct (Z_lt_ge_dec n 0) as [Hneg|Hpos].
  { left. rewrite wr_oob by lia. reflexivity. }
  destruct (Z_lt_ge_dec n m) as [Hin|Hout].
  2:{ left. rewrite wr_oob by lia. reflexivity. }
  right. rewrite wr_Ret by lia. cbn [bind].
  unfold trickleUp. cbn [trickleUp_rec].
  replace (n =? 0) with false by (symmetry; apply Z.eqb_neq; lia).
  cbn [set_A A].
  set (x := {| element := e; priority := p |}).
  assert (Hx : rd (<[Z.to_nat n := Some x]> a) n = Ret x).
  { apply rd_Ret. split; [lia|]. apply list_lookup_insert_eq. lia. }
  rewrite Hx. cbn [bind].
  rewrite (int_Ret (n - 1)) by (unfold INT_MIN, INT_MAX in *; lia). cbn [bind].
  destruct (parent_spec n ltac:(lia)) as [Hpar _]. unfold parent in Hpar.
  rewrite int_Ret by (unfold INT_MIN, INT_MAX in *; lia). cbn [bind].
  unfold rd at 1.
  replace (in_bounds _ _) with true
    by (symmetry; apply in_bounds_true; rewrite length_insert; lia).
  rewrite list_lookup_insert_ne by lia.
  unfold a. rewrite lookup_replicate_2 by lia. reflexivity.
Qed.

Lemma Heap_arrays_nonzero hSize0 P E s c :
  hSize0 <> 0 -> 0 < s ->
  s <= Z.of_nat (length P) -> s <= Z.of_nat (length E) ->
  0 <= s + c <= INT_MAX ->
  Heap_arrays hSize0 P E s c = Undefined OutOfBounds \/
  Heap_arrays hSize0 P E s c = Undefined Indeterminate.
Proof.
  intros Hne Hs HP HE Hc. unfold Heap_arrays.
  rewrite int_Ret by (unfold INT_MIN in *; lia). cbn [bind].
  rewrite new_Pair_Ret by lia. cbn [bind].
  destruct (Z.to_nat s) as [|k] eqn:Ek; [lia|]. cbn [insert_arrays].
  destruct (lookup_lt_is_Some_2 E (Z.to_nat 0) ltac:(lia)) as [e He].
  destruct (lookup_lt_is_Some_2 P (Z.to_nat 0) ltac:(lia)) as [p Hp].
  rewrite (rd_int_Ret E 0 e), (rd_int_Ret P 0 p) by (assumption || lia).
  cbn [bind].
  destruct (insert_fresh_nonzero e p (s + c) (s + c) hSize0 Hne Hc) as [H|H];
    cbv zeta in H; rewrite H; auto.
Qed.

(** A negative count with [0 <= s + c]: the loop does not run. *)
Lemma Heap_arrays_negative_count hSize0 P E s c :
  s < 0 -> 0 <= s + c <= INT_MAX ->
  Heap_arrays hSize0 P E s c =
  Ret {| A := replicate (Z.to_nat (s + c)) None;
         hCapacity := s + c; hSize := hSize0 |}.
Proof.
  intros Hs Hc. unfold Heap_arrays.
  rewrite int_Ret by (unfold INT_MIN in *; lia). cbn [bind].
  rewrite new_Pair_Ret by lia. cbn [bind].
  now replace (Z.to_nat s) with O by lia.
Qed.

(** A negative length of the array: [new] throws. *)
Lemma new_Pair_negative n : n < 0 -> new_Pair n = Throw bad_array_new_length.
Proof.
  intros Hn. unfold new_Pair.
  now replace (n <? 0) with true by (symmetry; apply Z.ltb_lt; lia).
Qed.

(** An input sequence shorter than the count is read past its end. *)
Lemma insert_arrays_short k : forall i P E h,
  heap_inv h -> hSize h + Z.of_nat k <= hCapacity h ->
  0 <= i <= Z.of_nat (length P) -> i <= Z.of_nat (length E) ->
  Z.of_nat (length P) < i + Z.of_nat k \/ Z.of_nat (length E) < i + Z.of_nat k ->
  insert_arrays k i P E h = Undefined OutOfBounds.
Proof.
  induction k as [|k IH]; intros i P E h Hinv Hcap HP HE Hshort; [lia|].
  cbn [insert_arrays].
  destruct (Z_le_gt_dec (Z.of_nat (length E)) i) as [HEi|HEi].
  { now rewrite rd_int_oob. }
  destruct (lookup_lt_is_Some_2 E (Z.to_nat i) ltac:(lia)) as [e He].
  rewrite (rd_int_Ret E i e) by (assumption || lia). cbn [bind].
  destruct (Z_le_gt_dec (Z.of_nat (length P)) i) as [HPi|HPi].
  { now rewrite rd_int_oob. }
  destruct (lookup_lt_is_Some_2 P (Z.to_nat i) ltac:(lia)) as [p Hp].
  rewrite (rd_int_Ret P i p) by (assumption || lia). cbn [bind].
  destruct (insert_spec e p h Hinv ltac:(lia)) as (h1 & E1 & Hinv1 & Hs1 & Hc1 & _).
  rewrite E1. cbn [bind]. apply IH; auto; lia.
Qed.

(** ** The checks that can be run are sound *)

Lemma filledb_sound a n : filledb a n = true -> filled a n.
Proof.
  unfold filledb. rewrite forallb_forall. intros H i Hi.
  specialize (H (Z.to_nat i)). rewrite in_seq in H.
  specialize (H ltac:(lia)).
  destruct (a !! Z.to_nat i) as [[p|]|]; try discriminate. eauto.
Qed.

Lemma heap_orderedb_sound a n : heap_orderedb a n = true -> heap_ordered a n.
Proof.
  unfold heap_orderedb. rewrite forallb_forall. intros H i Hi.
  specialize (H (Z.to_nat i)). rewrite in_seq in H.
  specialize (H ltac:(lia)). rewrite Z2Nat.id in H by lia.
  now apply Z.leb_le.
Qed.

Lemma heap_wfb_sound h : heap_wfb h = true -> heap_wf h.
Proof.
  unfold heap_wfb. rewrite !andb_true_iff.
  intros [[[[H1%Z.eqb_eq H2%Z.leb_le] H3%Z.leb_le] H4%Z.leb_le] H5%filledb_sound].
  constructor; auto.
Qed.

Lemma heap_invb_sound h : heap_invb h = true -> heap_inv h.
Proof.
  unfold heap_invb. rewrite andb_true_iff.
  intros [H1%heap_wfb_sound H2%heap_orderedb_sound]. now split.
Qed.

(** ** The invariant of the class *)

Lemma reachable_inv h : reachable h -> heap_inv h.
Proof.
  induction 1 as [h E | c h Hc Hm E | P E s c h Hs HP HE Hc Hm Eh
                 | h1 h2 c h _ IH1 _ IH2 Hc Hm E | e p h h' _ IH Hlt E
                 | h e h' _ IH Hpos E].
  - destruct Heap_default_spec as (h0 & E0 & Hinv & _). congruence.
  - destruct (Heap_capacity_spec c Hc Hm) as (h0 & E0 & Hinv & _). congruence.
  - destruct (Heap_arrays_zero_spec P E s c Hs HP HE Hc Hm) as (h0 & E0 & Hinv & _).
    congruence.
  - destruct (Heap_merge_spec h1 h2 c (proj1 IH1) (proj1 IH2) Hc Hm)
      as (h0 & E0 & Hinv & _). congruence.
  - destruct (insert_spec e p h IH Hlt) as (h0 & E0 & Hinv & _). congruence.
  - destruct (extractMin_spec h IH Hpos) as (a0 & h0 & _ & E0 & Hinv & _).
    congruence.
Qed.

(** ** Insertion followed by extraction *)

(** C1. For every list [xs] of n <element, priority> pairs inserted, one
    [insert] each, into an empty heap whose capacity [c] is at least n
    (and small enough for the child indices [2*i+2] to fit an [int]), n
    calls of [extractMin] succeed and return the elements of [out], a
    permutation of [xs] whose priorities are non-decreasing; the priority
    recorded with each element is the one [peekMinPriority] reports just
    before it is extracted. *)
Theorem insert_extract_sorted (c : Z) (xs : list Pair) :
  Z.of_nat (length xs) <= c -> 2 * c <= INT_MAX ->
  exists (out : list Pair) (h : Heap),
    (do h0 <- Heap_capacity c ;;
     do h1 <- insert_all xs h0 ;;
     extract_elements (length xs) h1) = Ret (map element out, h) /\
    (do h0 <- Heap_capacity c ;;
     do h1 <- insert_all xs h0 ;;
     extract_all (length xs) h1) = Ret (out, h) /\
    out ≡ₚ xs /\ StronglySorted by_priority out /\ hSize h = 0.
Proof.
  intros Hlen Hmax.
  destruct (Heap_capacity_spec c ltac:(lia) Hmax) as (h0 & E0 & Hinv0 & Hs0 & Hc0 & He0).
  destruct (insert_all_spec xs h0 Hinv0 ltac:(lia))
    as (h1 & E1 & Hinv1 & Hs1 & Hc1 & He1).
  destruct (extract_all_spec (length xs) h1 Hinv1 ltac:(lia))
    as (out & h & Ea & Ee & Hperm & Hsort & _ & Hs & _).
  exists out, h. rewrite E0. cbn [bind]. rewrite E1. cbn [bind].
  split_and!; auto.
  now rewrite Hperm, He1, He0.
Qed.

Lemma insert_extract_sorted_witness :
  let xs := [mkPair 97 5; mkPair 98 3; mkPair 99 8; mkPair 100 1] in
  Z.of_nat (length xs) <= 4 /\ 2 * 4 <= INT_MAX /\
  exists (out : list Pair) (h : Heap),
    (do h0 <- Heap_capacity 4 ;;
     do h1 <- insert_all xs h0 ;;
     extract_elements (length xs) h1) = Ret (map element out, h) /\
    (do h0 <- Heap_capacity 4 ;;
     do h1 <- insert_all xs h0 ;;
     extract_all (length xs) h1) = Ret (out, h) /\
    out ≡ₚ xs /\ StronglySorted by_priority out /\ hSize h = 0.
Proof.
  intros xs.
  assert (H1 : Z.of_nat (length xs) <= 4) by (simpl; lia).
  assert (H2 : 2 * 4 <= INT_MAX) by (unfold INT_MAX; lia).
  split; [exact H1|]. split; [exact H2|].
  exact (insert_extract_sorted 4 xs H1 H2).
Defined.

(** The scenario of the specification: the pairs (5,a), (3,b), (8,c),
    (1,d) come out as d, b, a, c. *)
Example extract_scenario :
  (do h0 <- Heap_capacity 4 ;;
   do h1 <- insert_all [mkPair 97 5; mkPair 98 3; mkPair 99 8; mkPair 100 1] h0 ;;
   do r <- extract_elements 4 h1 ;;
   Ret (fst r)) = Ret [100; 98; 97; 99].
Proof. reflexivity. Qed.

(** ** The heap-order invariant *)

(** C2 (the code departs from it). The array constructor never assigns
    [hSize]. For an object whose storage holds 2 there, the constructor
    called with count 0 and spare capacity 5 yields a heap of size 2 with
    no entry at indices 0 and 1: there is no priority for the invariant
    to compare, the representation invariant fails, and a following
    insertion within the capacity is undefined behaviour; with count 4 the
    construction itself is. From every other constructor (and from this
    one on zero-initialised storage) the invariant holds: [reachable_inv]. *)
Example array_constructor_loses_invariant :
  Heap_arrays 2 [5; 3; 8; 1] [97; 98; 99; 100] 4 4 = Undefined Indeterminate /\
  exists h, Heap_arrays 2 [] [] 0 5 = Ret h /\
            hSize h = 2 /\ hSize h < hCapacity h /\
            rd (A h) 0 = Undefined Indeterminate /\
            rd (A h) 1 = Undefined Indeterminate /\
            heap_invb h = false /\
            insert 5 1 h = Undefined Indeterminate.
Proof. split; [reflexivity|]. eexists. repeat split. Qed.

(** ** Access to an empty heap *)

(** C3, as stated, fails: after one insertion and one extraction the heap
    is empty, and [peekMin] returns the element that was extracted. *)
Lemma peekMin_on_emptied_heap :
  exists h,
    (do h0 <- Heap_capacity 3 ;;
     do h1 <- insert 7 1 h0 ;;
     do r <- extractMin h1 ;;
     Ret (snd r)) = Ret h /\
    size h = 0 /\ empty h = true /\ peekMin h = Ret 7 /\
    extractMin h = Undefined OutOfBounds.
Proof. eexists. repeat split. Qed.

Lemma rd_cases a i :
  (exists p, rd a i = Ret p) \/ (exists f, rd a i = Undefined f).
Proof.
  unfold rd. destruct (in_bounds a i); [|eauto].
  destruct (a !! Z.to_nat i) as [[p|]|]; eauto.
Qed.

(** C3, amended. Neither [peekMin] nor [extractMin] tests for emptiness,
    and no error is reported. On a heap of size 0: if cell 0 of the array
    holds an entry, [peekMin] returns its element and [extractMin] reads
    [A[-1]], outside the array; otherwise (no cell, or a cell never
    assigned, as in a heap just constructed) both are the undefined
    behaviour of reading cell 0. *)
Theorem empty_heap_access (h : Heap) :
  hSize h = 0 ->
  (exists p, rd (A h) 0 = Ret p /\ peekMin h = Ret (element p) /\
             extractMin h = Undefined OutOfBounds) \/
  (exists f, rd (A h) 0 = Undefined f /\ peekMin h = Undefined f /\
             extractMin h = Undefined f).
Proof.
  intros Hs. unfold peekMin, extractMin.
  destruct (rd_cases (A h) 0) as [[p Hp]|[f Hf]].
  - left. exists p. rewrite Hp, Hs. cbn [bind].
    rewrite int_Ret by (unfold INT_MIN, INT_MAX; lia). cbn [bind].
    rewrite rd_oob by lia. auto.
  - right. exists f. rewrite Hf. auto.
Qed.

Lemma empty_heap_access_witness :
  let h := {| A := [Some (mkPair 7 1); None; None]; hCapacity := 3; hSize := 0 |} in
  hSize h = 0 /\
  ((exists p, rd (A h) 0 = Ret p /\ peekMin h = Ret (element p) /\
              extractMin h = Undefined OutOfBounds) \/
   (exists f, rd (A h) 0 = Undefined f /\ peekMin h = Undefined f /\
              extractMin h = Undefined f)).
Proof.
  intros h. split; [reflexivity|]. exact (empty_heap_access h eq_refl).
Defined.

(** On a heap just constructed both calls are undefined behaviour. *)
Example fresh_heap_access :
  (do h <- Heap_default ;; peekMin h) = Undefined Indeterminate /\
  (do h <- Heap_default ;; extractMin h) = Undefined Indeterminate /\
  (do h <- Heap_capacity 0 ;; peekMin h) = Undefined OutOfBounds.
Proof. repeat split. Qed.

(** ** Insertion into a full heap *)

(** C4, as stated, fails: a heap of capacity 1 holding one entry takes a
    second [insert] as a write to [A[1]], outside its array. *)
Lemma insert_into_full_heap :
  exists h,
    (do h0 <- Heap_capacity 1 ;; insert 7 1 h0) = Ret h /\
    size h = capacity h /\
    insert 8 2 h = Undefined OutOfBounds.
Proof. eexists. repeat split. Qed.

(** C4, amended. [insert] makes no test of the capacity: on a heap whose
    array has [hCapacity] cells and whose size equals the capacity, it
    neither reports an error nor grows the array; its first statement
    writes [A[hSize]], one cell past the end of the array. *)
Theorem insert_at_capacity (e p : Z) (h : Heap) :
  Z.of_nat (length (A h)) = hCapacity h -> hSize h = hCapacity h ->
  insert e p h = Undefined OutOfBounds.
Proof.
  intros Hlen Hfull. unfold insert. now rewrite wr_oob by lia.
Qed.

Lemma insert_at_capacity_witness :
  let h := {| A := [Some (mkPair 7 1)]; hCapacity := 1; hSize := 1 |} in
  Z.of_nat (length (A h)) = hCapacity h /\ hSize h = hCapacity h /\
  insert 8 2 h = Undefined OutOfBounds.
Proof.
  intros h. split; [reflexivity|]. split; [reflexivity|].
  exact (insert_at_capacity 8 2 h eq_refl eq_refl).
Defined.

(** ** Construction from arrays *)

(** C5 (the code departs from it). The array constructor never assigns
    [hSize]: insertion starts at whatever the storage of the object holds
    there. With 4 in that member, the example of the specification writes
    its first entry to [A[4]] of a four-cell array. Only on storage that
    holds 0 does the constructor build the heap the claim describes:
    [Heap_arrays_zero_spec], [Heap_arrays_nonzero]. *)
Example array_constructor_size_unset :
  Heap_arrays 4 [5; 3; 8; 1] [97; 98; 99; 100] 4 0 = Undefined OutOfBounds /\
  Heap_arrays 1 [5; 3; 8; 1] [97; 98; 99; 100] 4 0 = Undefined Indeterminate /\
  exists h, Heap_arrays 7 [5; 3; 8; 1] [97; 98; 99; 100] 0 4 = Ret h /\
            size h = 7 /\ capacity h = 4.
Proof. split; [reflexivity|]. split; [reflexivity|]. eexists. repeat split. Qed.

(** On zero-initialised storage the example of the specification holds:
    the elements come out as d, b, a, c. *)
Example array_constructor_scenario :
  (do h <- Heap_arrays 0 [5; 3; 8; 1] [97; 98; 99; 100] 4 0 ;;
   do r <- extract_elements 4 h ;;
   Ret (size h, capacity h, fst r)) = Ret (4, 4, [100; 98; 97; 99]).
Proof. reflexivity. Qed.

(** C6, as stated, fails: a negative count with a larger spare capacity
    produces a heap, and a sequence shorter than the count is read past
    its end with no error reported. *)
Lemma negative_count_builds_heap :
  Heap_arrays 0 [] [] (-2) 5 =
    Ret {| A := [None; None; None]; hCapacity := 3; hSize := 0 |} /\
  Heap_arrays 0 [5] [97] 2 0 = Undefined OutOfBounds.
Proof. split; reflexivity. Qed.

(** C6, amended. No constructor validates its arguments. A negative
    length of the array ([c < 0], or [s + c < 0]) makes [new] throw
    before a heap is produced; a negative count [s] with [0 <= s + c]
    produces a heap of capacity [s + c] into which nothing is inserted;
    an input sequence shorter than the count is read past its end
    (stated for zero-initialised storage, where the insertions before
    that read succeed). *)
Theorem constructors_validate_nothing :
  (forall c, c < 0 -> Heap_capacity c = Throw bad_array_new_length) /\
  (forall hSize0 P E s c,
     INT_MIN <= s + c < 0 ->
     Heap_arrays hSize0 P E s c = Throw bad_array_new_length) /\
  (forall hSize0 P E s c,
     s < 0 -> 0 <= s + c <= INT_MAX ->
     Heap_arrays hSize0 P E s c =
       Ret {| A := replicate (Z.to_nat (s + c)) None;
              hCapacity := s + c; hSize := hSize0 |}) /\
  (forall P E s c,
     0 <= c -> 2 * (s + c) <= INT_MAX ->
     Z.of_nat (length P) < s \/ Z.of_nat (length E) < s ->
     Heap_arrays 0 P E s c = Undefined OutOfBounds).
Proof.
  split_and!.
  - intros c Hc. unfold Heap_capacity. now rewrite new_Pair_negative.
  - intros hs P E s c Hc. unfold Heap_arrays.
    rewrite int_Ret by (unfold INT_MAX; lia). cbn [bind].
    now rewrite new_Pair_negative by lia.
  - apply Heap_arrays_negative_count.
  - intros P E s c Hc Hmax Hshort. unfold Heap_arrays.
    pose proof (Zle_0_nat (length P)). pose proof (Zle_0_nat (length E)).
    rewrite int_Ret by (unfold INT_MIN, INT_MAX in *; lia). cbn [bind].
    rewrite new_Pair_Ret by lia. cbn [bind].
    apply insert_arrays_short; simpl; try lia.
    apply new_heap_inv; lia.
Qed.

Lemma constructors_validate_nothing_witness :
  Heap_capacity (-1) = Throw bad_array_new_length /\
  Heap_arrays 0 [5] [97] 1 (-3) = Throw bad_array_new_length /\
  Heap_arrays 0 [] [] (-2) 5 =
    Ret {| A := replicate (Z.to_nat (-2 + 5)) None;
           hCapacity := -2 + 5; hSize := 0 |} /\
  Heap_arrays 0 [5] [97; 98] 2 1 = Undefined OutOfBounds.
Proof.
  destruct constructors_validate_nothing as (H1 & H2 & H3 & H4).
  split; [apply H1; lia|].
  split; [apply H2; unfold INT_MIN; lia|].
  split; [apply H3; unfold INT_MAX; lia|].
  apply H4; [lia | unfold INT_MAX; lia | left; simpl; lia].
Defined.

(** ** Merging *)

(** C7. For heaps [Heap1] and [Heap2] satisfying the invariant of the
    class and a spare capacity [c >= 0] (with twice the new capacity
    fitting an [int]), the merging constructor returns a heap whose
    entries are a permutation of the entries of both, whose size is the
    sum of the sizes, whose capacity is that sum plus [c], and which
    satisfies the heap-order invariant. *)
Theorem merge_correct (Heap1 Heap2 : Heap) (c : Z) :
  heap_inv Heap1 -> heap_inv Heap2 -> 0 <= c ->
  2 * (hSize Heap1 + hSize Heap2 + c) <= INT_MAX ->
  exists h, Heap_merge Heap1 Heap2 c = Ret h /\
            entries h ≡ₚ entries Heap1 ++ entries Heap2 /\
            size h = size Heap1 + size Heap2 /\
            capacity h = size Heap1 + size Heap2 + c /\
            heap_ordered (A h) (hSize h) /\ heap_inv h.
Proof.
  intros [Hw1 _] [Hw2 _] Hc Hmax.
  destruct (Heap_merge_spec Heap1 Heap2 c Hw1 Hw2 Hc Hmax)
    as (h & E & Hinv & Hs & Hcap & Hent).
  exists h. split_and!; auto. apply Hinv.
Qed.

Lemma merge_correct_witness :
  let Heap1 := {| A := [Some (mkPair 100 1); Some (mkPair 98 3);
                        Some (mkPair 99 8); Some (mkPair 97 5)];
                  hCapacity := 4; hSize := 4 |} in
  let Heap2 := {| A := [Some (mkPair 1 2); Some (mkPair 2 9);
                        Some (mkPair 3 4); None; None];
                  hCapacity := 5; hSize := 3 |} in
  heap_inv Heap1 /\ heap_inv Heap2 /\ 0 <= 1 /\
  2 * (hSize Heap1 + hSize Heap2 + 1) <= INT_MAX /\
  exists h, Heap_merge Heap1 Heap2 1 = Ret h /\
            entries h ≡ₚ entries Heap1 ++ entries Heap2 /\
            size h = size Heap1 + size Heap2 /\
            capacity h = size Heap1 + size Heap2 + 1 /\
            heap_ordered (A h) (hSize h) /\ heap_inv h.
Proof.
  intros Heap1 Heap2.
  assert (H1 : heap_inv Heap1) by (apply heap_invb_sound; vm_compute; reflexivity).
  assert (H2 : heap_inv Heap2) by (apply heap_invb_sound; vm_compute; reflexivity).
  assert (H3 : 0 <= 1) by lia.
  assert (H4 : 2 * (hSize Heap1 + hSize Heap2 + 1) <= INT_MAX)
    by (unfold INT_MAX; simpl; lia).
  split_and!; auto.
  exact (merge_correct Heap1 Heap2 1 H1 H2 H3 H4).
Defined.

(** The merged heap of the two heaps above. *)
Example merge_scenario :
  Heap_merge
    {| A := [Some (mkPair 100 1); Some (mkPair 98 3);
             Some (mkPair 99 8); Some (mkPair 97 5)];
       hCapacity := 4; hSize := 4 |}
    {| A := [Some (mkPair 1 2); Some (mkPair 2 9); Some (mkPair 3 4); None; None];
       hCapacity := 5; hSize := 3 |} 1
  = Ret {| A := [Some (mkPair 100 1); Some (mkPair 1 2); Some (mkPair 3 4);
                 Some (mkPair 97 5); Some (mkPair 98 3); Some (mkPair 2 9);
                 Some (mkPair 99 8); None];
           hCapacity := 8; hSize := 7 |}.
Proof. reflexivity. Qed.

(** ** The case analysis of trickleDown *)

(** C8. At a node [i] of a well-formed heap, with [left = 2*i+1] and
    [right = 2*i+2]: if neither child index is below the size,
    [trickleDown] stops; if only [left] is, it exchanges [i] and [left]
    when the priority at [left] is strictly smaller, and stops either way;
    if both are, it stops when the priority at [i] is at most both, and
    otherwise exchanges [i] with [right] when the priority at [right] is
    strictly smaller than the one at [left], with [left] if not (ties
    between the children go to [left]), and continues at that child. *)
Theorem trickleDown_cases (i : Z) (h : Heap) :
  heap_wf h -> 0 <= i < hSize h ->
  let left := 2 * i + 1 in
  let right := 2 * i + 2 in
  (hSize h <= left -> trickleDown i h = Ret h) /\
  (left < hSize h <= right ->
   trickleDown i h =
     if prio (A h) left <? prio (A h) i then swap i left h else Ret h) /\
  (right < hSize h ->
   trickleDown i h =
     if (prio (A h) i <=? prio (A h) left) && (prio (A h) i <=? prio (A h) right)
     then Ret h
     else if prio (A h) right <? prio (A h) left
     then do h1 <- swap i right h ;; trickleDown right h1
     else do h1 <- swap i left h ;; trickleDown left h1).
Proof.
  intros [Hlen Hsz Hcap Hf] Hi left right.
  rewrite trickleDown_unfold by (unfold INT_MIN, INT_MAX in *; lia).
  cbv zeta. fold left right.
  destruct (rd_filled _ _ i Hf Hi) as [ai Hai].
  rewrite Hai, (rd_prio _ _ _ Hai). cbn [bind].
  split_and!.
  - intros H. now replace (hSize h <=? left) with true by (symmetry; apply Z.leb_le; lia).
  - intros H.
    replace (hSize h <=? left) with false by (symmetry; apply Z.leb_gt; lia).
    replace (hSize h <=? right) with true by (symmetry; apply Z.leb_le; lia).
    destruct (rd_filled _ _ left Hf ltac:(unfold left; lia)) as [al Hal].
    now rewrite Hal, (rd_prio _ _ _ Hal).
  - intros H.
    replace (hSize h <=? left) with false
      by (symmetry; apply Z.leb_gt; unfold left, right in *; lia).
    replace (hSize h <=? right) with false by (symmetry; apply Z.leb_gt; lia).
    destruct (rd_filled _ _ left Hf ltac:(unfold left, right in *; lia)) as [al Hal].
    destruct (rd_filled _ _ right Hf ltac:(unfold right in *; lia)) as [ar Har].
    now rewrite Hal, Har, (rd_prio _ _ _ Hal), (rd_prio _ _ _ Har).
Qed.

Lemma trickleDown_cases_witness :
  let h := {| A := [Some (mkPair 99 8); Some (mkPair 98 3);
                    Some (mkPair 97 3); Some (mkPair 96 1)];
              hCapacity := 4; hSize := 4 |} in
  heap_wf h /\ 0 <= 0 < hSize h /\
  (hSize h <= 1 -> trickleDown 0 h = Ret h) /\
  (1 < hSize h <= 2 ->
   trickleDown 0 h =
     if prio (A h) 1 <? prio (A h) 0 then swap 0 1 h else Ret h) /\
  (2 < hSize h ->
   trickleDown 0 h =
     if (prio (A h) 0 <=? prio (A h) 1) && (prio (A h) 0 <=? prio (A h) 2)
     then Ret h
     else if prio (A h) 2 <? prio (A h) 1
     then do h1 <- swap 0 2 h ;; trickleDown 2 h1
     else do h1 <- swap 0 1 h ;; trickleDown 1 h1).
Proof.
  intros h.
  assert (H1 : heap_wf h) by (apply heap_wfb_sound; vm_compute; reflexivity).
  assert (H2 : 0 <= 0 < hSize h) by (simpl; lia).
  split; [exact H1|]. split; [exact H2|].
  exact (trickleDown_cases 0 h H1 H2).
Defined.

(** With equal priorities at the two children the left one is taken, and
    a lone left child is exchanged without a further call. *)
Example trickleDown_tie :
  trickleDown 0
    {| A := [Some (mkPair 99 8); Some (mkPair 98 3);
             Some (mkPair 97 3); Some (mkPair 96 1)];
       hCapacity := 4; hSize := 4 |}
  = Ret {| A := [Some (mkPair 98 3); Some (mkPair 96 1);
                 Some (mkPair 97 3); Some (mkPair 99 8)];
           hCapacity := 4; hSize := 4 |}.
Proof. reflexivity. Qed.

(** ** Termination *)

(** C9. No operation exhausts its budget of calls, on any input.
    [trickleUp] at [i] makes at most [i + 1] calls: each call moves to the
    parent, a smaller index that is at least 0. [trickleDown] at [i] makes
    at most [hSize - i + 1] calls: each call moves to a child, a larger
    index that is below [hSize]. Any larger budget gives the same result.
    The loops of [heapify] and of the constructors, and with them
    [insert], [extractMin] and the constructors, halt as well. *)
Theorem operations_terminate :
  (forall i h,
     halts (trickleUp i h) /\
     forall fuel, (Z.to_nat i < fuel)%nat ->
                  trickleUp_rec fuel i h = trickleUp i h) /\
  (forall i h,
     halts (trickleDown i h) /\
     forall fuel, (Z.to_nat (hSize h - i) < fuel)%nat ->
                  trickleDown_rec fuel i h = trickleDown i h) /\
  (forall h, halts (heapify h)) /\
  (forall e p h, halts (insert e p h)) /\
  (forall h, halts (extractMin h)) /\
  halts Heap_default /\
  (forall c, halts (Heap_capacity c)) /\
  (forall hSize0 P E s c, halts (Heap_arrays hSize0 P E s c)) /\
  (forall Heap1 Heap2 c, halts (Heap_merge Heap1 Heap2 c)).
Proof.
  split_and!.
  - intros i h. split; [apply trickleUp_halts | apply trickleUp_fuel].
  - intros i h. split; [apply trickleDown_halts | apply trickleDown_fuel].
  - apply heapify_halts.
  - apply insert_halts.
  - apply extractMin_halts.
  - discriminate.
  - apply Heap_capacity_halts.
  - apply Heap_arrays_halts.
  - apply Heap_merge_halts.
Qed.

(** ** The frame of insert *)

(** C10. On a heap satisfying the invariant with [hSize < hCapacity],
    [insert] returns a heap of the same capacity in which every cell of
    the array whose index is neither the old size nor a proper ancestor
    of it holds what it held before. *)
Theorem insert_changes_ancestors_only (e p : Z) (h : Heap) :
  heap_inv h -> hSize h < hCapacity h ->
  exists h', insert e p h = Ret h' /\
             capacity h' = capacity h /\
             forall j : nat,
               Z.of_nat j <> hSize h ->
               is_ancestor (Z.of_nat j) (hSize h) = false ->
               A h' !! j = A h !! j.
Proof.
  intros Hinv Hlt.
  destruct (insert_spec e p h Hinv Hlt) as (h' & E & _).
  exists h'. split; [exact E|]. now apply insert_frame in E.
Qed.

Lemma insert_changes_ancestors_only_witness :
  let h := {| A := [Some (mkPair 1 2); Some (mkPair 2 9);
                    Some (mkPair 3 4); Some (mkPair 4 10); None; None];
              hCapacity := 6; hSize := 4 |} in
  heap_inv h /\ hSize h < hCapacity h /\
  exists h', insert 5 1 h = Ret h' /\
             capacity h' = capacity h /\
             forall j : nat,
               Z.of_nat j <> hSize h ->
               is_ancestor (Z.of_nat j) (hSize h) = false ->
               A h' !! j = A h !! j.
Proof.
  intros h.
  assert (H1 : heap_inv h) by (apply heap_invb_sound; vm_compute; reflexivity).
  assert (H2 : hSize h < hCapacity h) by (simpl; lia).
  split; [exact H1|]. split; [exact H2|].
  exact (insert_changes_ancestors_only 5 1 h H1 H2).
Defined.

(** The insertion of the witness: the new entry rises from index 4 through
    its ancestors 1 and 0; the cells 2, 3 and 5 keep their contents. *)
Example insert_frame_scenario :
  insert 5 1
    {| A := [Some (mkPair 1 2); Some (mkPair 2 9);
             Some (mkPair 3 4); Some (mkPair 4 10); None; None];
       hCapacity := 6; hSize := 4 |}
  = Ret {| A := [Some (mkPair 5 1); Some (mkPair 1 2);
                 Some (mkPair 3 4); Some (mkPair 4 10); Some (mkPair 2 9); None];
           hCapacity := 6; hSize := 5 |} /\
  map (fun j => is_ancestor j 4) [0; 1; 2; 3; 5] = [true; true; false; false; false].
Proof. split; reflexivity. Qed.

(** ** Further properties of the class *)

(** X1. Every heap built by a constructor ([Heap()], [Heap(c)], the
    merging constructor, the array constructor on zero-initialised
    storage) followed by insertions within the capacity and extractions
    from non-empty heaps satisfies the invariant of the class: the array
    has [hCapacity] cells, [0 <= hSize <= hCapacity], the cells below
    [hSize] hold entries, and the priority at every index [1 <= i < hSize]
    is at least the priority at [(i-1)/2]. *)
Theorem valid_operations_keep_invariant (h : Heap) :
  reachable h ->
  Z.of_nat (length (A h)) = capacity h /\ 0 <= size h <= capacity h /\
  filled (A h) (size h) /\
  forall i, 1 <= i < size h -> prio (A h) i >= prio (A h) ((i - 1) ÷ 2).
Proof.
  intros [[Hlen Hsz _ Hf] Ho]%reachable_inv. split_and!; auto; try apply Hsz.
  intros i Hi. specialize (Ho i Hi). unfold parent in Ho. lia.
Qed.

Lemma valid_operations_keep_invariant_witness :
  let h := {| A := [Some (mkPair 98 3); Some (mkPair 98 3); None];
              hCapacity := 3; hSize := 1 |} in
  reachable h /\
  Z.of_nat (length (A h)) = capacity h /\ 0 <= size h <= capacity h /\
  filled (A h) (size h) /\
  forall i, 1 <= i < size h -> prio (A h) i >= prio (A h) ((i - 1) ÷ 2).
Proof.
  intros h.
  assert (R0 : reachable {| A := [None; None; None]; hCapacity := 3; hSize := 0 |}).
  { apply (reach_capacity 3); [lia | unfold INT_MAX; lia | reflexivity]. }
  assert (R1 : reachable {| A := [Some (mkPair 100 1); None; None];
                            hCapacity := 3; hSize := 1 |}).
  { apply (reach_insert 100 1 _ _ R0); [simpl; lia | reflexivity]. }
  assert (R2 : reachable {| A := [Some (mkPair 100 1); Some (mkPair 98 3); None];
                            hCapacity := 3; hSize := 2 |}).
  { apply (reach_insert 98 3 _ _ R1); [simpl; lia | reflexivity]. }
  assert (R3 : reachable h).
  { apply (reach_extractMin _ 100 _ R2); [simpl; lia | reflexivity]. }
  split; [exact R3|]. exact (valid_operations_keep_invariant h R3).
Defined.

(** X2. The array constructor builds the heap its comment describes
    exactly when the storage of the object holds 0 in [hSize]: then the
    result has size [s], capacity [s + c] and the pairs
    <Elements[i], Priorities[i]> as entries, and is the result of
    inserting them in order into [Heap(s + c)]; with any other value and
    [s > 0] the construction is undefined behaviour. *)
Theorem array_constructor_needs_zeroed_size
    (hSize0 : Z) (Priorities Elements : list Z) (s c : Z) :
  0 < s -> s <= Z.of_nat (length Priorities) -> s <= Z.of_nat (length Elements) ->
  0 <= c -> 2 * (s + c) <= INT_MAX ->
  (hSize0 = 0 ->
   exists h, Heap_arrays hSize0 Priorities Elements s c = Ret h /\
             (do h0 <- Heap_capacity (s + c) ;;
              insert_all (pairs_of Priorities Elements s) h0) = Ret h /\
             size h = s /\ capacity h = s + c /\ heap_inv h /\
             entries h ≡ₚ pairs_of Priorities Elements s) /\
  (hSize0 <> 0 ->
   exists f, Heap_arrays hSize0 Priorities Elements s c = Undefined f).
Proof.
  intros Hs HP HE Hc Hmax. split.
  - intros ->.
    destruct (Heap_arrays_zero_spec Priorities Elements s c)
      as (h & E & Hinv & Hsz & Hcap & Hent); try lia.
    exists h. split_and!; auto.
    rewrite <- E. symmetry. apply Heap_arrays_zero; try lia.
    unfold INT_MIN, INT_MAX in *. lia.
  - intros Hne.
    destruct (Heap_arrays_nonzero hSize0 Priorities Elements s c) as [E|E];
      try lia; eauto.
Qed.

Lemma array_constructor_needs_zeroed_size_witness :
  let P := [5; 3; 8; 1] in
  let E := [97; 98; 99; 100] in
  0 < 4 /\ 4 <= Z.of_nat (length P) /\ 4 <= Z.of_nat (length E) /\
  0 <= 0 /\ 2 * (4 + 0) <= INT_MAX /\
  (0 = 0 ->
   exists h, Heap_arrays 0 P E 4 0 = Ret h /\
             (do h0 <- Heap_capacity (4 + 0) ;;
              insert_all (pairs_of P E 4) h0) = Ret h /\
             size h = 4 /\ capacity h = 4 + 0 /\ heap_inv h /\
             entries h ≡ₚ pairs_of P E 4) /\
  (0 <> 0 -> exists f, Heap_arrays 0 P E 4 0 = Undefined f).
Proof.
  intros P E.
  assert (H1 : 0 < 4) by lia.
  assert (H2 : 4 <= Z.of_nat (length P)) by (simpl; lia).
  assert (H3 : 4 <= Z.of_nat (length E)) by (simpl; lia).
  assert (H4 : 0 <= 0) by lia.
  assert (H5 : 2 * (4 + 0) <= INT_MAX) by (unfold INT_MAX; lia).
  split_and!; auto;
    apply (array_constructor_needs_zeroed_size 0 P E 4 0 H1 H2 H3 H4 H5).
Defined.

(** X3. On a non-empty heap satisfying the invariant, [peekMin] and
    [peekMinPriority] return the element and the priority of the entry
    at the root, whose priority is minimal among the entries, and
    [extractMin] returns that element, removes exactly that entry,
    decrements the size, keeps the capacity and keeps the invariant. *)
Theorem extractMin_returns_minimum (h : Heap) :
  heap_inv h -> 0 < size h ->
  exists (a0 : Pair) (h' : Heap),
    peekMin h = Ret (element a0) /\
    peekMinPriority h = Ret (priority a0) /\
    extractMin h = Ret (element a0, h') /\
    (forall x, x ∈ entries h -> priority a0 <= priority x) /\
    entries h ≡ₚ a0 :: entries h' /\
    size h' = size h - 1 /\ capacity h' = capacity h /\ heap_inv h'.
Proof.
  intros Hinv Hpos.
  destruct (extractMin_spec h Hinv Hpos)
    as (a0 & h' & Ha0 & E & Hinv' & Hs & Hc & Hperm & Hmin).
  exists a0, h'. split_and!; auto.
  - now apply peekMin_spec.
  - now apply peekMinPriority_spec.
Qed.

Lemma extractMin_returns_minimum_witness :
  let h := {| A := [Some (mkPair 100 1); Some (mkPair 98 3);
                    Some (mkPair 99 8); Some (mkPair 97 5)];
              hCapacity := 4; hSize := 4 |} in
  heap_inv h /\ 0 < size h /\
  exists (a0 : Pair) (h' : Heap),
    peekMin h = Ret (element a0) /\
    peekMinPriority h = Ret (priority a0) /\
    extractMin h = Ret (element a0, h') /\
    (forall x, x ∈ entries h -> priority a0 <= priority x) /\
    entries h ≡ₚ a0 :: entries h' /\
    size h' = size h - 1 /\ capacity h' = capacity h /\ heap_inv h'.
Proof.
  intros h.
  assert (H1 : heap_inv h) by (apply heap_invb_sound; vm_compute; reflexivity).
  assert (H2 : 0 < size h) by (simpl; lia).
  split; [exact H1|]. split; [exact H2|].
  exact (extractMin_returns_minimum h H1 H2).
Defined.

(** X4. On a heap satisfying the invariant with [size < capacity],
    [insert] adds exactly the new entry, increments the size, keeps the
    capacity and keeps the invariant. *)
Theorem insert_adds_entry (e p : Z) (h : Heap) :
  heap_inv h -> size h < capacity h ->
  exists h', insert e p h = Ret h' /\
             entries h' ≡ₚ mkPair e p :: entries h /\
             size h' = size h + 1 /\ capacity h' = capacity h /\ heap_inv h'.
Proof.
  intros Hinv Hlt.
  destruct (insert_spec e p h Hinv Hlt) as (h' & E & Hinv' & Hs & Hc & Hperm).
  exists h'. split_and!; auto.
Qed.

Lemma insert_adds_entry_witness :
  let h := {| A := [Some (mkPair 1 2); Some (mkPair 2 9);
                    Some (mkPair 3 4); None; None];
              hCapacity := 5; hSize := 3 |} in
  heap_inv h /\ size h < capacity h /\
  exists h', insert 7 1 h = Ret h' /\
             entries h' ≡ₚ mkPair 7 1 :: entries h /\
             size h' = size h + 1 /\ capacity h' = capacity h /\ heap_inv h'.
Proof.
  intros h.
  assert (H1 : heap_inv h) by (apply heap_invb_sound; vm_compute; reflexivity).
  assert (H2 : size h < capacity h) by (simpl; lia).
  split; [exact H1|]. split; [exact H2|].
  exact (insert_adds_entry 7 1 h H1 H2).
Defined.



(** ** Sequences of insertions and extractions *)

Lemma insert_full e p h :
  Z.of_nat (length (A h)) = hCapacity h -> hCapacity h <= hSize h ->
  insert e p h = Undefined OutOfBounds.
Proof. intros Hlen Hfull. unfold insert. now rewrite wr_oob by lia. Qed.

Lemma rd_Ret_or_Undefined a i :
  (exists p, rd a i = Ret p) \/ (exists f, rd a i = Undefined f).
Proof.
  unfold rd. destruct (in_bounds a i); [|eauto].
  destruct (a !! Z.to_nat i) as [[p|]|]; eauto.
Qed.

Lemma extractMin_empty h :
  hSize h <= 0 -> INT_MIN < hSize h -> exists f, extractMin h = Undefined f.
Proof.
  intros Hs Hmin. unfold extractMin.
  destruct (rd_Ret_or_Undefined (A h) 0) as [[p Hp]|[f Hf]].
  - rewrite Hp. cbn [bind].
    rewrite int_Ret by (unfold INT_MIN, INT_MAX in *; lia). cbn [bind].
    rewrite rd_oob by lia. eauto.
  - rewrite Hf. eauto.
Qed.

Lemma size_after_count ops : forall n cap m,
  size_after ops n cap = Some m -> m = n + n_inserts ops - n_extracts ops.
Proof.
  unfold n_inserts, n_extracts.
  induction ops as [|[e p|] ops IH]; intros n cap m; simpl.
  - intros E. inversion E. lia.
  - destruct (n <? cap); [|discriminate]. intros E%IH. lia.
  - destruct (0 <? n); [|discriminate]. intros E%IH. lia.
Qed.

(** X6. On a heap satisfying the invariant, a sequence of [insert] and
    [extractMin] calls is defined exactly when the running size stays
    within the capacity at every insertion and above 0 at every
    extraction. Then it returns a heap satisfying the invariant, of the
    same capacity, whose size is the old size plus the number of
    insertions minus the number of extractions; otherwise it runs into
    undefined behaviour. *)
Theorem calls_defined_iff_size_in_range (ops : list op) (h : Heap) :
  heap_inv h ->
  match size_after ops (size h) (capacity h) with
  | Some n =>
      exists h', run ops h = Ret h' /\ heap_inv h' /\
                 size h' = n /\ n = size h + n_inserts ops - n_extracts ops /\
                 capacity h' = capacity h
  | None => exists f, run ops h = Undefined f
  end.
Proof.
  unfold size, capacity. revert h.
  induction ops as [|[e p|] ops IH]; intros h Hinv; cbn [size_after run step].
  - exists h. unfold n_inserts, n_extracts. simpl. split_and!; auto. lia.
  - destruct (Z.ltb_spec (hSize h) (hCapacity h)) as [Hlt|Hge].
    + destruct (insert_spec e p h Hinv Hlt) as (h1 & E & Hinv1 & Hs1 & Hc1 & _).
      rewrite E. cbn [bind]. specialize (IH h1 Hinv1).
      rewrite Hs1, Hc1 in IH.
      destruct (size_after ops (hSize h + 1) (hCapacity h)) as [n|] eqn:En;
        [|exact IH].
      destruct IH as (h' & E' & Hinv' & Hs' & _ & Hc').
      exists h'. split_and!; auto.
      apply (size_after_count (Insert e p :: ops) _ (hCapacity h)). simpl.
      now replace (hSize h <? hCapacity h) with true
        by (symmetry; apply Z.ltb_lt; lia).
    + exists OutOfBounds. rewrite insert_full; auto. apply Hinv.
  - destruct (Z.ltb_spec 0 (hSize h)) as [Hpos|Hle].
    + destruct (extractMin_spec h Hinv Hpos)
        as (a0 & h1 & _ & E & Hinv1 & Hs1 & Hc1 & _).
      rewrite E. cbn [bind snd]. specialize (IH h1 Hinv1).
      rewrite Hs1, Hc1 in IH.
      destruct (size_after ops (hSize h - 1) (hCapacity h)) as [n|] eqn:En;
        [|exact IH].
      destruct IH as (h' & E' & Hinv' & Hs' & _ & Hc').
      exists h'. split_and!; auto.
      apply (size_after_count (ExtractMin :: ops) _ (hCapacity h)). simpl.
      now replace (0 <? hSize h) with true by (symmetry; apply Z.ltb_lt; lia).
    + destruct (extractMin_empty h Hle) as [f Hf].
      { destruct Hinv as [[_ Hsz _ _] _]. unfold INT_MIN. lia. }
      exists f. now rewrite Hf.
Qed.

Lemma calls_defined_iff_size_in_range_witness :
  let h := {| A := [Some (mkPair 1 2); None]; hCapacity := 2; hSize := 1 |} in
  let ops := [Insert 7 1; ExtractMin; ExtractMin; Insert 8 5] in
  heap_inv h /\
  match size_after ops (size h) (capacity h) with
  | Some n =>
      exists h', run ops h = Ret h' /\ heap_inv h' /\
                 size h' = n /\ n = size h + n_inserts ops - n_extracts ops /\
                 capacity h' = capacity h
  | None => exists f, run ops h = Undefined f
  end.
Proof.
  intros h ops.
  assert (H1 : heap_inv h) by (apply heap_invb_sound; vm_compute; reflexivity).
  split; [exact H1|]. exact (calls_defined_iff_size_in_range ops h H1).
Defined.

Lemma insert_all_overflow xs : forall h,
  heap_inv h -> hCapacity h < hSize h + Z.of_nat (length xs) ->
  insert_all xs h = Undefined OutOfBounds.
Proof.
  induction xs as [|x xs IH]; intros h Hinv Hover.
  - destruct Hinv as [[_ Hsz _ _] _]. simpl in Hover. lia.
  - cbn [insert_all].
    destruct (Z_lt_ge_dec (hSize h) (hCapacity h)) as [Hlt|Hge].
    + destruct (insert_spec (element x) (priority x) h Hinv Hlt)
        as (h1 & E & Hinv1 & Hs1 & Hc1 & _).
      rewrite E. cbn [bind]. apply IH; auto. simpl length in Hover. lia.
    + rewrite insert_full; auto; [apply Hinv | lia].
Qed.

Lemma insert_all_fresh (m : outcome Heap) c xs :
  (exists h0, m = Ret h0 /\ heap_inv h0 /\ hSize h0 = 0 /\
              hCapacity h0 = c /\ entries h0 = []) ->
  (Z.of_nat (length xs) <= c ->
   exists h, (do h0 <- m ;; insert_all xs h0) = Ret h /\ heap_inv h /\
             size h = Z.of_nat (length xs) /\ capacity h = c /\
             entries h ≡ₚ xs) /\
  (c < Z.of_nat (length xs) ->
   (do h0 <- m ;; insert_all xs h0) = Undefined OutOfBounds).
Proof.
  intros (h0 & -> & Hinv0 & Hs0 & Hc0 & He0). cbn [bind]. split; intros Hlen.
  - destruct (insert_all_spec xs h0 Hinv0 ltac:(lia))
      as (h & E & Hinv & Hs & Hc & He).
    exists h. unfold size, capacity. split_and!; auto; try lia.
    now rewrite He, He0.
  - apply insert_all_overflow; auto. lia.
Qed.

(** X7. [Heap(c)] with [0 <= c] (and [2*c] fitting an [int]) and [Heap()]
    build an empty heap of capacity [c], respectively 10. Inserting a
    list of pairs into it succeeds when the list has at most that many
    pairs, and then yields a heap holding exactly those pairs; with more
    pairs the insertion that finds the heap full writes outside the
    array. *)
Theorem constructed_heap_holds_capacity :
  (forall c xs,
     0 <= c -> 2 * c <= INT_MAX ->
     (do h <- Heap_capacity c ;; Ret (size h, capacity h, empty h))
       = Ret (0, c, true) /\
     (Z.of_nat (length xs) <= c ->
      exists h, (do h0 <- Heap_capacity c ;; insert_all xs h0) = Ret h /\
                heap_inv h /\ size h = Z.of_nat (length xs) /\
                capacity h = c /\ entries h ≡ₚ xs) /\
     (c < Z.of_nat (length xs) ->
      (do h0 <- Heap_capacity c ;; insert_all xs h0) = Undefined OutOfBounds)) /\
  (forall xs,
     (do h <- Heap_default ;; Ret (size h, capacity h, empty h))
       = Ret (0, 10, true) /\
     (Z.of_nat (length xs) <= 10 ->
      exists h, (do h0 <- Heap_default ;; insert_all xs h0) = Ret h /\
                heap_inv h /\ size h = Z.of_nat (length xs) /\
                capacity h = 10 /\ entries h ≡ₚ xs) /\
     (10 < Z.of_nat (length xs) ->
      (do h0 <- Heap_default ;; insert_all xs h0) = Undefined OutOfBounds)).
Proof.
  split.
  - intros c xs Hc Hmax. split.
    + unfold Heap_capacity. now rewrite new_Pair_Ret by lia.
    + apply insert_all_fresh. apply Heap_capacity_spec; auto.
  - intros xs. split; [reflexivity|].
    apply insert_all_fresh. apply Heap_default_spec.
Qed.

(** ** heapify on its own *)

Lemma trickleDown_ordered i h :
  0 <= i -> 2 * i + 2 <= INT_MAX -> 0 <= hSize h <= INT_MAX ->
  filled (A h) (hSize h) ->
  (2 * i + 1 < hSize h -> prio (A h) i <= prio (A h) (2 * i + 1)) ->
  (2 * i + 2 < hSize h -> prio (A h) i <= prio (A h) (2 * i + 2)) ->
  trickleDown i h = Ret h.
Proof.
  intros Hi Hmax Hn Hf Hl Hr.
  rewrite trickleDown_unfold by (unfold INT_MIN in *; lia). cbv zeta.
  destruct (Z.leb_spec (hSize h) (2 * i + 1)) as [H1|H1]; [reflexivity|].
  destruct (rd_filled _ _ i Hf ltac:(lia)) as [ai Hai].
  destruct (rd_filled _ _ (2 * i + 1) Hf ltac:(lia)) as [al Hal].
  rewrite Hai, Hal. cbn [bind].
  specialize (Hl H1). rewrite (rd_prio _ _ _ Hai), (rd_prio _ _ _ Hal) in Hl.
  destruct (Z.leb_spec (hSize h) (2 * i + 2)) as [H2|H2].
  - now replace (priority al <? priority ai) with false
      by (symmetry; apply Z.ltb_ge; lia).
  - destruct (rd_filled _ _ (2 * i + 2) Hf ltac:(lia)) as [ar Har].
    rewrite Har. cbn [bind].
    specialize (Hr H2). rewrite (rd_prio _ _ _ Hai), (rd_prio _ _ _ Har) in Hr.
    replace (priority ai <=? priority al) with true
      by (symmetry; apply Z.leb_le; lia).
    now replace (priority ai <=? priority ar) with true
      by (symmetry; apply Z.leb_le; lia).
Qed.

Lemma heapify_loop_ordered k h :
  2 * Z.of_nat k <= hSize h -> 2 * hSize h <= INT_MAX ->
  filled (A h) (hSize h) -> heap_ordered (A h) (hSize h) ->
  heapify_loop k h = Ret h.
Proof.
  intros Hk Hmax Hf Ho. induction k as [|k IH]; [reflexivity|].
  cbn [heapify_loop]. rewrite trickleDown_ordered; try lia; auto.
  - cbn [bind]. apply IH. lia.
  - intros H. specialize (Ho (2 * Z.of_nat k + 1) ltac:(lia)).
    now rewrite parent_left in Ho by lia.
  - intros H. specialize (Ho (2 * Z.of_nat k + 2) ltac:(lia)).
    now rewrite parent_right in Ho by lia.
Qed.

(** X8. On any well-formed heap, whatever the order of its entries,
    [heapify] returns a heap of the same size and capacity that satisfies
    the heap-order invariant and holds the same entries, and it leaves
    the cells from [hSize] on as they are. On a heap that already
    satisfies the invariant it changes nothing, so it is idempotent. *)
Theorem heapify_establishes_order (h : Heap) :
  heap_wf h ->
  (exists h', heapify h = Ret h' /\ heap_inv h' /\
              size h' = size h /\ capacity h' = capacity h /\
              entries h' ≡ₚ entries h /\
              (forall j : nat, size h <= Z.of_nat j -> A h' !! j = A h !! j) /\
              heapify h' = Ret h') /\
  (heap_ordered (A h) (hSize h) -> heapify h = Ret h).
Proof.
  intros [Hlen Hsz Hcap Hf].
  assert (Hq : 0 <= hSize h ÷ 2 /\ 2 * (hSize h ÷ 2) <= hSize h).
  { rewrite Z.quot_div_nonneg by lia.
    pose proof (Z.div_mod (hSize h) 2 ltac:(lia)).
    pose proof (Z.mod_pos_bound (hSize h) 2 ltac:(lia)). lia. }
  assert (Hid : forall g, hSize g = hSize h -> 2 * hSize g <= INT_MAX ->
                  filled (A g) (hSize g) -> heap_ordered (A g) (hSize g) ->
                  heapify g = Ret g).
  { intros g Hg Hmax Hfg Hog. unfold heapify. rewrite Hg.
    rewrite (int_Ret (hSize h ÷ 2)) by (unfold INT_MIN, INT_MAX in *; lia).
    cbn [bind].
    rewrite (int_Ret (hSize h ÷ 2 - 1)) by (unfold INT_MIN, INT_MAX in *; lia).
    cbn [bind]. apply heapify_loop_ordered; auto. lia. }
  split.
  - destruct (heapify_spec h) as (a' & E & Hl & Hf' & Ho & Hp & Hfr); try lia; auto.
    exists (set_A h a'). unfold size, capacity, entries. simpl.
    split_and!; auto.
    + split; [constructor; simpl; auto; lia | exact Ho].
    + now rewrite (take_Permutation (A h) a' (hSize h) Hp Hfr) by lia.
    + intros j Hj. specialize (Hfr (Z.of_nat j) Hj). now rewrite Nat2Z.id in Hfr.
    + apply Hid; simpl; auto. lia.
  - intros Ho. apply Hid; auto. lia.
Qed.

Lemma heapify_establishes_order_witness :
  let h := {| A := [Some (mkPair 1 9); Some (mkPair 2 4); Some (mkPair 3 7);
                    Some (mkPair 4 1); None];
              hCapacity := 5; hSize := 4 |} in
  heap_wf h /\
  (exists h', heapify h = Ret h' /\ heap_inv h' /\
              size h' = size h /\ capacity h' = capacity h /\
              entries h' ≡ₚ entries h /\
              (forall j : nat, size h <= Z.of_nat j -> A h' !! j = A h !! j) /\
              heapify h' = Ret h') /\
  (heap_ordered (A h) (hSize h) -> heapify h = Ret h).
Proof.
  intros h.
  assert (H1 : heap_wf h) by (apply heap_wfb_sound; vm_compute; reflexivity).
  split; [exact H1|]. exact (heapify_establishes_order h H1).
Defined.

(** ** Emptying a heap *)

(** X9. Extracting [size] times from any heap satisfying the invariant
    succeeds, leaves it empty with its capacity unchanged, and returns
    its entries in non-decreasing order of priority; merging two heaps
    and emptying the result returns the entries of both in that order. *)
Theorem extract_all_sorts (h : Heap) :
  heap_inv h ->
  (exists out h',
     extract_all (Z.to_nat (size h)) h = Ret (out, h') /\
     extract_elements (Z.to_nat (size h)) h = Ret (map element out, h') /\
     out ≡ₚ entries h /\ StronglySorted by_priority out /\
     size h' = 0 /\ capacity h' = capacity h /\ heap_inv h') /\
  (forall h2 c,
     heap_inv h2 -> 0 <= c -> 2 * (size h + size h2 + c) <= INT_MAX ->
     exists out h',
       (do m <- Heap_merge h h2 c ;; extract_all (Z.to_nat (size m)) m)
         = Ret (out, h') /\
       out ≡ₚ entries h ++ entries h2 /\ StronglySorted by_priority out /\
       size h' = 0 /\ capacity h' = size h + size h2 + c).
Proof.
  intros Hinv. unfold size, capacity. split.
  - destruct (extract_all_spec (Z.to_nat (hSize h)) h Hinv)
      as (out & h' & E1 & E2 & Hp & Hs & Hinv' & Hz & Hc).
    { destruct Hinv as [[_ Hsz _ _] _]. lia. }
    exists out, h'. split_and!; auto.
  - intros h2 c Hinv2 Hc Hmax.
    destruct (Heap_merge_spec h h2 c (proj1 Hinv) (proj1 Hinv2) Hc Hmax)
      as (m & Em & Hinvm & Hsm & Hcm & Hem).
    rewrite Em. cbn [bind].
    destruct (extract_all_spec (Z.to_nat (hSize m)) m Hinvm)
      as (out & h' & E1 & _ & Hp & Hs & _ & Hz & Hc').
    { destruct Hinvm as [[_ Hsz _ _] _]. lia. }
    exists out, h'. split_and!; auto; try congruence.
    now rewrite Hp.
Qed.

Lemma extract_all_sorts_witness :
  let h := {| A := [Some (mkPair 100 1); Some (mkPair 98 3);
                    Some (mkPair 99 8); Some (mkPair 97 5)];
              hCapacity := 4; hSize := 4 |} in
  heap_inv h /\
  (exists out h',
     extract_all (Z.to_nat (size h)) h = Ret (out, h') /\
     extract_elements (Z.to_nat (size h)) h = Ret (map element out, h') /\
     out ≡ₚ entries h /\ StronglySorted by_priority out /\
     size h' = 0 /\ capacity h' = capacity h /\ heap_inv h') /\
  (forall h2 c,
     heap_inv h2 -> 0 <= c -> 2 * (size h + size h2 + c) <= INT_MAX ->
     exists out h',
       (do m <- Heap_merge h h2 c ;; extract_all (Z.to_nat (size m)) m)
         = Ret (out, h') /\
       out ≡ₚ entries h ++ entries h2 /\ StronglySorted by_priority out /\
       size h' = 0 /\ capacity h' = size h + size h2 + c).
Proof.
  intros h.
  assert (H1 : heap_inv h) by (apply heap_invb_sound; vm_compute; reflexivity).
  split; [exact H1|]. exact (extract_all_sorts h H1).
Defined.

(** ** The minimum after an insertion *)

(** Only the new entry rises: after [trickleUp] at [i] the root holds what
    it held, or what cell [i] held when that is strictly smaller. *)
Lemma trickleUp_rec_root fuel : forall i h h',
  trickleUp_rec fuel i h = Ret h' -> 1 <= i ->
  A h' !! 0%nat = A h !! 0%nat \/
  (A h' !! 0%nat = A h !! Z.to_nat i /\ prio (A h) i < prio (A h) 0).
Proof.
  induction fuel as [|fuel IH]; intros i h h'; [discriminate|].
  cbn [trickleUp_rec]. intros E Hi.
  replace (i =? 0) with false in E by (symmetry; apply Z.eqb_neq; lia).
  apply bind_Ret_inv in E as (ai & Hai & E).
  apply bind_Ret_inv in E as (i1 & [-> _]%int_inv & E).
  apply bind_Ret_inv in E as (par & [-> _]%int_inv & E).
  fold (parent i) in E.
  apply bind_Ret_inv in E as (ap & Hap & E).
  destruct (Z.geb_spec (priority ai) (priority ap)) as [Hge|Hlt].
  { inversion E. auto. }
  apply bind_Ret_inv in E as (h1 & Hs & E).
  apply swap_inv in Hs as (a1 & -> & Hex & _).
  destruct (parent_spec i Hi) as [Hp _].
  pose proof Hex as (_ & Hxi & Hxp & Hxk & _).
  destruct (exchanged_prio _ _ _ _ Hex ltac:(lia) ltac:(lia)) as (Qi & Qp & Qk).
  pose proof (rd_prio _ _ _ Hai) as Pi. pose proof (rd_prio _ _ _ Hap) as Pp.
  destruct (decide (parent i = 0)) as [H0|H0].
  - rewrite H0 in *. destruct fuel; [discriminate|].
    cbn [trickleUp_rec] in E. simpl in E. inversion E; subst h'.
    right. simpl. split; [exact Hxp | lia].
  - apply IH in E; [|lia]. simpl in E.
    destruct E as [E|[E Hlt']].
    + left. rewrite E. apply (Hxk 0); lia.
    + right. rewrite E, Hxp. split; [reflexivity|].
      rewrite Qp in Hlt'. rewrite (Qk 0) in Hlt' by lia. exact Hlt'.
Qed.

Lemma root_in_entries h a0 :
  0 < hSize h -> rd (A h) 0 = Ret a0 -> a0 ∈ entries h.
Proof.
  intros Hpos [_ H0]%rd_Ret. unfold entries.
  apply list_elem_of_omap. exists (Some a0). split; [|reflexivity].
  apply list_elem_of_lookup. exists (Z.to_nat 0).
  rewrite lookup_take_lt by lia. exact H0.
Qed.

(** X10. After [insert(e, p)] into a heap satisfying the invariant with
    room left, the new entry is at the root exactly when the heap was
    empty or [p] is strictly smaller than the old minimum priority (on a
    tie the old root stays). [peekMinPriority] and [peekMin] then report
    [p] and [e], and otherwise what they reported before; a following
    [extractMin] returns what [peekMin] reports and brings the size back,
    and when it returns the new entry the heap holds its old entries
    again. *)
Theorem insert_then_minimum (e p : Z) (h : Heap) :
  heap_inv h -> size h < capacity h ->
  let new_first := (size h =? 0) || (p <? prio (A h) 0) in
  exists h' x h'',
    insert e p h = Ret h' /\
    peekMinPriority h' = Ret (if new_first then p else prio (A h) 0) /\
    peekMin h' = (if new_first then Ret e else peekMin h) /\
    peekMin h' = Ret x /\
    extractMin h' = Ret (x, h'') /\
    size h'' = size h /\ capacity h'' = capacity h /\ heap_inv h'' /\
    (new_first = true -> entries h'' ≡ₚ entries h).
Proof.
  intros Hinv Hlt new_first. unfold size, capacity in *.
  set (x := {| element := e; priority := p |}).
  destruct (insert_spec e p h Hinv Hlt) as (h' & E & Hinv' & Hs' & Hc' & Hperm).
  fold x in Hperm.
  destruct (extractMin_spec h' Hinv' ltac:(destruct Hinv as [[]]; lia))
    as (r & h'' & Hr & Ex & Hinv'' & Hs'' & Hc'' & Hperm'' & Hmin).
  exists h', (element r), h''.
  assert (Hroot : r = (if new_first then x
                       else match A h !! 0%nat with
                            | Some (Some a0) => a0 | _ => x end)).
  { pose proof E as E0. unfold insert in E0.
    apply bind_Ret_inv in E0 as (a1 & [Hn ->]%wr_inv & E0).
    apply bind_Ret_inv in E0 as (h1 & Hup & E0).
    apply bind_Ret_inv in E0 as (n & _ & E0). inversion E0; subst h'; clear E0.
    apply rd_Ret in Hr as [_ Hr]. simpl in Hr. unfold trickleUp in Hup.
    unfold new_first.
    destruct (Z.eqb_spec (hSize h) 0) as [H0|H0]; cbn [orb].
    - rewrite H0 in Hup. simpl in Hup. inversion Hup; subst h1. simpl in Hr.
      rewrite ?H0 in Hr. rewrite list_lookup_insert_eq in Hr by lia.
      unfold x. congruence.
    - apply trickleUp_rec_root in Hup; [|lia]. simpl in Hup.
      rewrite list_lookup_insert_ne in Hup by lia.
      rewrite list_lookup_insert_eq in Hup by lia.
      destruct Hinv as [[Hlen Hsz Hcap Hf] Ho].
      destruct (Hf 0 ltac:(lia)) as [a0 Ha0]. change (Z.to_nat 0) with 0%nat in Ha0.
      assert (Pa1 : prio (<[Z.to_nat (hSize h) := Some x]> (A h)) (hSize h) = p).
      { unfold prio. now rewrite list_lookup_insert_eq by lia. }
      assert (Pa0 : prio (<[Z.to_nat (hSize h) := Some x]> (A h)) 0 = prio (A h) 0).
      { unfold prio. now rewrite list_lookup_insert_ne by lia. }
      unfold x in Pa1, Pa0. rewrite Pa1, Pa0 in Hup.
      assert (P0 : prio (A h) 0 = priority a0)
        by (unfold prio; change (Z.to_nat 0) with 0%nat; now rewrite Ha0).
      change (Z.to_nat 0) with 0%nat in Hr. unfold x in *.
      rewrite Ha0. destruct (Z.ltb_spec p (prio (A h) 0)) as [Hpm|Hpm].
      + destruct Hup as [Hup|[Hup _]]; [|congruence].
        assert (r = a0) by congruence. subst r.
        specialize (Hmin {| element := e; priority := p |}).
        rewrite Hperm in Hmin.
        specialize (Hmin ltac:(left)). simpl in Hmin. lia.
      + destruct Hup as [Hup|[_ Hup]]; [congruence | lia]. }
  assert (Hold : new_first = false ->
                 exists a0, A h !! 0%nat = Some (Some a0) /\
                            peekMin h = Ret (element a0) /\
                            prio (A h) 0 = priority a0).
  { unfold new_first. intros [H0%Z.eqb_neq _]%orb_false_iff.
    destruct Hinv as [[Hlen Hsz Hcap Hf] Ho].
    destruct (Hf 0 ltac:(lia)) as [a0 Ha0]. exists a0.
    unfold prio. rewrite Ha0. split_and!; auto.
    apply peekMin_spec. apply rd_Ret. split; [lia | exact Ha0]. }
  rewrite (peekMinPriority_spec h' r Hr), (peekMin_spec h' r Hr).
  clearbody new_first. destruct new_first.
  - subst r. split_and!; auto; try lia.
    intros _. rewrite Hperm in Hperm''. symmetry.
    now apply Permutation_cons_inv in Hperm''.
  - destruct (Hold eq_refl) as (a0 & Ha0 & Hpk & Hpr).
    rewrite Ha0 in Hroot. subst r.
    rewrite Hpk, Hpr. split_and!; auto; try lia.
Qed.

Lemma insert_then_minimum_witness :
  let h := {| A := [Some (mkPair 1 2); Some (mkPair 2 9);
                    Some (mkPair 3 4); None; None];
              hCapacity := 5; hSize := 3 |} in
  heap_inv h /\ size h < capacity h /\
  let new_first := (size h =? 0) || (1 <? prio (A h) 0) in
  exists h' x h'',
    insert 7 1 h = Ret h' /\
    peekMinPriority h' = Ret (if new_first then 1 else prio (A h) 0) /\
    peekMin h' = (if new_first then Ret 7 else peekMin h) /\
    peekMin h' = Ret x /\
    extractMin h' = Ret (x, h'') /\
    size h'' = size h /\ capacity h'' = capacity h /\ heap_inv h'' /\
    (new_first = true -> entries h'' ≡ₚ entries h).
Proof.
  intros h.
  assert (H1 : heap_inv h) by (apply heap_invb_sound; vm_compute; reflexivity).
  assert (H2 : size h < capacity h) by (simpl; lia).
  split; [exact H1|]. split; [exact H2|].
  exact (insert_then_minimum 7 1 h H1 H2).
Defined.

(** ** The accessors and the entries *)





(** ** printHeap *)

Lemma printHeap_loop_spec k : forall i h,
  0 <= i -> filled (A h) (i + Z.of_nat k) ->
  printHeap_loop k i h =
  Ret (concat (imap (fun j x => line (i + Z.of_nat j) x)
                    (omap id (take k (drop (Z.to_nat i) (A h)))))).
Proof.
  induction k as [|k IH]; intros i h Hi Hf; [reflexivity|].
  cbn [printHeap_loop].
  destruct (Hf i ltac:(lia)) as [p Hp].
  assert (Hrd : rd (A h) i = Ret p) by (apply rd_Ret; auto).
  rewrite Hrd. cbn [bind].
  rewrite IH by (try lia; intros j Hj; apply Hf; lia). cbn [bind].
  rewrite (drop_S (A h) (Some p) (Z.to_nat i)) by assumption.
  replace (Z.to_nat (i + 1)) with (S (Z.to_nat i)) by lia.
  simpl. rewrite Z.add_0_r.
  erewrite (imap_ext (fun j x => line (i + 1 + Z.of_nat j) x)); [reflexivity|].
  intros j x _. simpl. f_equal. lia.
Qed.

(** X12. On a well-formed heap [printHeap] writes one line per entry, in
    the order of the array: position, priority and element of the entry
    at each index below the size. It writes nothing when the size is 0
    or negative. *)
Theorem printHeap_lists_entries (h : Heap) :
  (heap_wf h ->
   printHeap h =
     Ret (concat (imap (fun j x => line (Z.of_nat j) x) (entries h)))) /\
  (hSize h <= 0 -> printHeap h = Ret []).
Proof.
  split.
  - intros [_ Hsz _ Hf]. unfold printHeap, entries.
    rewrite printHeap_loop_spec; [now rewrite drop_0 | lia |].
    now rewrite Z.add_0_l, Z2Nat.id by lia.
  - intros Hs. unfold printHeap. now replace (Z.to_nat (hSize h)) with O by lia.
Qed.

Lemma printHeap_lists_entries_witness :
  let h := {| A := [Some (mkPair 1 2); Some (mkPair 2 9); None];
              hCapacity := 3; hSize := 2 |} in
  heap_wf h /\
  printHeap h = Ret (concat (imap (fun j x => line (Z.of_nat j) x) (entries h))).
Proof.
  intros h.
  assert (H1 : heap_wf h) by (apply heap_wfb_sound; vm_compute; reflexivity).
  split; [exact H1|]. exact (proj1 (printHeap_lists_entries h) H1).
Defined.

(** ** swap *)

Lemma exchanged_eq (a a1 a2 : list cell) (i j : Z) :
  0 <= i -> 0 <= j ->
  length a1 = length a2 ->
  a1 !! Z.to_nat i = a2 !! Z.to_nat i ->
  a1 !! Z.to_nat j = a2 !! Z.to_nat j ->
  (forall k, 0 <= k -> k <> i -> k <> j -> a1 !! Z.to_nat k = a !! Z.to_nat k) ->
  (forall k, 0 <= k -> k <> i -> k <> j -> a2 !! Z.to_nat k = a !! Z.to_nat k) ->
  a1 = a2.
Proof.
  intros Hi Hj _ Ei Ej H1 H2. apply list_eq. intros k.
  destruct (decide (Z.of_nat k = i)) as [<-|Hki]; [now rewrite Nat2Z.id in Ei|].
  destruct (decide (Z.of_nat k = j)) as [<-|Hkj]; [now rewrite Nat2Z.id in Ej|].
  specialize (H1 (Z.of_nat k) ltac:(lia) Hki Hkj).
  specialize (H2 (Z.of_nat k) ltac:(lia) Hki Hkj).
  rewrite Nat2Z.id in H1, H2. congruence.
Qed.

(** X13. When [swap(i, j)] returns, it has exchanged the cells [i] and
    [j] and changed no other cell, nor the size or the capacity;
    [swap(j, i)] returns the same heap, and a second [swap(i, j)]
    restores the heap. *)
Theorem swap_exchanges (i j : Z) (h h1 : Heap) :
  swap i j h = Ret h1 ->
  A h1 !! Z.to_nat i = A h !! Z.to_nat j /\
  A h1 !! Z.to_nat j = A h !! Z.to_nat i /\
  (forall k : nat, Z.of_nat k <> i -> Z.of_nat k <> j -> A h1 !! k = A h !! k) /\
  size h1 = size h /\ capacity h1 = capacity h /\
  swap j i h = Ret h1 /\
  swap i j h1 = Ret h.
Proof.
  intros E. pose proof E as E0.
  apply swap_inv in E0 as (a1 & -> & Hex & [x Hx] & [y Hy]).
  pose proof Hex as (Hl & Hi & Hj & Hk & _).
  pose proof (proj1 (proj1 (rd_Ret _ _ _) Hx)) as Hi0.
  pose proof (proj1 (proj1 (rd_Ret _ _ _) Hy)) as Hj0.
  simpl. split_and!; auto.
  - intros k Hki Hkj. specialize (Hk (Z.of_nat k) ltac:(lia) Hki Hkj).
    now rewrite Nat2Z.id in Hk.
  - destruct (swap_spec h j i y x Hy Hx) as (a1' & E' & Hex').
    rewrite E'. do 2 f_equal.
    destruct Hex' as (Hl' & Hj' & Hi' & Hk' & _).
    apply (exchanged_eq (A h) a1' a1 i j); auto; congruence.
  - assert (Hx1 : rd a1 i = Ret y).
    { apply rd_Ret. split; [lia|]. rewrite Hi. now apply rd_Ret in Hy. }
    assert (Hy1 : rd a1 j = Ret x).
    { apply rd_Ret. split; [lia|]. rewrite Hj. now apply rd_Ret in Hx. }
    destruct (swap_spec (set_A h a1) i j y x Hx1 Hy1) as (a2 & E2 & Hex2).
    rewrite E2. simpl in *. destruct Hex2 as (Hl2 & Hi2 & Hj2 & Hk2 & _).
    assert (a2 = A h) as ->.
    { apply (exchanged_eq (A h) a2 (A h) i j); auto; try congruence.
      intros k H0 H1 H2. rewrite Hk2 by auto. now apply Hk. }
    now destruct h.
Qed.

Lemma swap_exchanges_witness :
  let h := {| A := [Some (mkPair 1 2); Some (mkPair 2 9); None];
              hCapacity := 3; hSize := 2 |} in
  let h1 := {| A := [Some (mkPair 2 9); Some (mkPair 1 2); None];
               hCapacity := 3; hSize := 2 |} in
  swap 0 1 h = Ret h1 /\
  A h1 !! Z.to_nat 0 = A h !! Z.to_nat 1 /\
  A h1 !! Z.to_nat 1 = A h !! Z.to_nat 0 /\
  (forall k : nat, Z.of_nat k <> 0 -> Z.of_nat k <> 1 -> A h1 !! k = A h !! k) /\
  size h1 = size h /\ capacity h1 = capacity h /\
  swap 1 0 h = Ret h1 /\
  swap 0 1 h1 = Ret h.
Proof.
  intros h h1.
  assert (H1 : swap 0 1 h = Ret h1) by reflexivity.
  split; [exact H1|]. exact (swap_exchanges 0 1 h h1 H1).
Defined.

(** ** The merging constructor with a negative spare capacity *)

Lemma copy_cells_oob k : forall src i dst off,
  0 <= i -> 0 <= off -> filled src (i + Z.of_nat k) ->
  off + i <= Z.of_nat (length dst) < off + i + Z.of_nat k ->
  copy_cells k src i dst off = Undefined OutOfBounds.
Proof.
  induction k as [|k IH]; intros src i dst off Hi Hoff Hf Hlen; [lia|].
  cbn [copy_cells].
  destruct (Hf i ltac:(lia)) as [p Hp].
  assert (Hrd : rd src i = Ret p) by (apply rd_Ret; auto).
  rewrite Hrd. cbn [bind].
  destruct (Z_lt_ge_dec (off + i) (Z.of_nat (length dst))) as [Hin|Hout].
  - rewrite wr_Ret by lia. cbn [bind]. apply IH; try lia.
    + intros j Hj. apply Hf. lia.
    + rewrite length_insert. lia.
  - now rewrite wr_oob by lia.
Qed.

Lemma std_copy_oob src n dst off :
  0 <= n -> 0 <= off <= Z.of_nat (length dst) -> filled src n ->
  Z.of_nat (length dst) < off + n ->
  std_copy src n dst off = Undefined OutOfBounds.
Proof.
  intros Hn Hoff Hf Hlen. unfold std_copy.
  replace (n <? 0) with false by (symmetry; apply Z.ltb_ge; lia).
  apply copy_cells_oob; try lia. now rewrite Z2Nat.id by lia.
Qed.

(** X14. The merging constructor does not test its spare capacity: with
    [c < 0] the new array is shorter than the entries to copy. When
    [size1 + size2 + c] is negative [new] throws; otherwise [std::copy]
    writes past the end of the new array. *)
Theorem merge_negative_spare (Heap1 Heap2 : Heap) (c : Z) :
  heap_wf Heap1 -> heap_wf Heap2 ->
  c < 0 -> INT_MIN <= size Heap1 + size Heap2 + c ->
  Heap_merge Heap1 Heap2 c =
    if size Heap1 + size Heap2 + c <? 0 then Throw bad_array_new_length
    else Undefined OutOfBounds.
Proof.
  unfold size. intros [_ Hs1 Hc1 Hf1] [_ Hs2 Hc2 Hf2] Hc Hmin. unfold Heap_merge.
  set (s1 := hSize Heap1) in *. set (s2 := hSize Heap2) in *.
  rewrite (int_Ret (s1 + s2)) by (unfold INT_MIN, INT_MAX in *; lia). cbn [bind].
  rewrite (int_Ret (s1 + s2 + c)) by (unfold INT_MIN, INT_MAX in *; lia). cbn [bind].
  destruct (Z.ltb_spec (s1 + s2 + c) 0) as [Hneg|Hpos].
  { now rewrite new_Pair_negative. }
  rewrite new_Pair_Ret by lia. cbn [bind].
  set (a := replicate (Z.to_nat (s1 + s2 + c)) None).
  assert (La : length a = Z.to_nat (s1 + s2 + c)) by apply length_replicate.
  destruct (Z_le_gt_dec s1 (s1 + s2 + c)) as [Hfit|Hover].
  - rewrite std_copy_spec; auto; try lia. cbn [bind].
    rewrite std_copy_oob; auto; try lia.
    all: pose proof (filled_length _ _ Hf1);
      rewrite !length_app, !length_take, length_drop, La; lia.
  - rewrite std_copy_oob; auto; lia.
Qed.

Lemma merge_negative_spare_witness :
  let Heap1 := {| A := [Some (mkPair 1 2); Some (mkPair 2 9)];
                  hCapacity := 2; hSize := 2 |} in
  let Heap2 := {| A := [Some (mkPair 3 4); None]; hCapacity := 2; hSize := 1 |} in
  heap_wf Heap1 /\ heap_wf Heap2 /\ -1 < 0 /\
  INT_MIN <= size Heap1 + size Heap2 + -1 /\
  Heap_merge Heap1 Heap2 (-1) =
    if size Heap1 + size Heap2 + -1 <? 0 then Throw bad_array_new_length
    else Undefined OutOfBounds.
Proof.
  intros Heap1 Heap2.
  assert (H1 : heap_wf Heap1) by (apply heap_wfb_sound; vm_compute; reflexivity).
  assert (H2 : heap_wf Heap2) by (apply heap_wfb_sound; vm_compute; reflexivity).
  assert (H3 : -1 < 0) by lia.
  assert (H4 : INT_MIN <= size Heap1 + size Heap2 + -1) by (vm_compute; discriminate).
  split; [exact H1|]. split; [exact H2|]. split; [exact H3|]. split; [exact H4|].
  exact (merge_negative_spare Heap1 Heap2 (-1) H1 H2 H3 H4).
Defined.

(** ** The cells trickleDown and extractMin may change *)

Lemma proper_ancestor_up c j :
  proper_ancestor c j -> 1 <= c -> proper_ancestor (parent c) j.
Proof.
  induction 1 as [j Hj | c j Hj _ IH]; intros Hc.
  - apply ancestor_further; [assumption|]. now apply ancestor_parent.
  - apply ancestor_further; auto.
Qed.

Lemma is_ancestor_up c j :
  1 <= c -> is_ancestor (parent c) j = false -> is_ancestor c j = false.
Proof.
  intros Hc Hp. destruct (is_ancestor c j) eqn:E; [|reflexivity].
  apply is_ancestor_spec in E. apply proper_ancestor_up in E; [|assumption].
  apply is_ancestor_spec in E. congruence.
Qed.

Lemma is_ancestor_child i c :
  0 <= i -> c = 2 * i + 1 \/ c = 2 * i + 2 -> is_ancestor i c = true.
Proof.
  intros Hi Hc. rewrite is_ancestor_unfold.
  assert (parent c = i) as ->
    by (destruct Hc as [-> | ->]; [apply parent_left | apply parent_right]; lia).
  rewrite Z.eqb_refl.
  now replace (1 <=? c) with true by (symmetry; apply Z.leb_le; lia).
Qed.

Lemma trickleDown_rec_frame fuel : forall i h h',
  trickleDown_rec fuel i h = Ret h' ->
  hSize h' = hSize h /\ hCapacity h' = hCapacity h /\
  forall j, 0 <= j ->
            (j <> i /\ is_ancestor i j = false) \/ hSize h <= j ->
            A h' !! Z.to_nat j = A h !! Z.to_nat j.
Proof.
  induction fuel as [|fuel IH]; intros i h h' E; [discriminate|].
  cbn [trickleDown_rec] in E.
  apply bind_Ret_inv in E as (i2 & [-> _]%int_inv & E).
  apply bind_Ret_inv in E as (l & [-> _]%int_inv & E).
  apply bind_Ret_inv in E as (r & [-> _]%int_inv & E).
  apply bind_Ret_inv in E as (last & [-> _]%int_inv & E).
  assert (Hsame : Ret h = Ret h' ->
            hSize h' = hSize h /\ hCapacity h' = hCapacity h /\
            forall j, 0 <= j ->
              (j <> i /\ is_ancestor i j = false) \/ hSize h <= j ->
              A h' !! Z.to_nat j = A h !! Z.to_nat j).
  { intros H. inversion H. auto. }
  assert (Hswap : forall c g, 0 <= i -> c = 2 * i + 1 \/ c = 2 * i + 2 ->
            c < hSize h -> swap i c h = Ret g ->
            hSize g = hSize h /\ hCapacity g = hCapacity h /\
            forall j, 0 <= j ->
              (j <> i /\ is_ancestor i j = false) \/ hSize h <= j ->
              A g !! Z.to_nat j = A h !! Z.to_nat j).
  { intros c g Hi Hc Hlt Hs.
    apply swap_inv in Hs as (a1 & -> & (_ & _ & _ & Hk & _) & _). simpl.
    split_and!; auto. intros j Hj Hfr. apply Hk; auto.
    - destruct Hfr as [[Hji _]|Hge]; lia.
    - destruct Hfr as [[_ Hanc]|Hge]; [|lia].
      intros ->. rewrite is_ancestor_child in Hanc by auto. discriminate. }
  assert (Hrec : forall c g, 0 <= i -> c = 2 * i + 1 \/ c = 2 * i + 2 ->
            c < hSize h -> swap i c h = Ret g ->
            trickleDown_rec fuel c g = Ret h' ->
            hSize h' = hSize h /\ hCapacity h' = hCapacity h /\
            forall j, 0 <= j ->
              (j <> i /\ is_ancestor i j = false) \/ hSize h <= j ->
              A h' !! Z.to_nat j = A h !! Z.to_nat j).
  { intros c g Hi Hc Hlt Hs Hr.
    destruct (Hswap c g Hi Hc Hlt Hs) as (Hs1 & Hc1 & Hf1).
    apply IH in Hr as (Hs2 & Hc2 & Hf2).
    split_and!; try congruence. intros j Hj Hfr.
    assert (Hfr' : j <> c /\ is_ancestor c j = false \/ hSize g <= j).
    { destruct Hfr as [[Hji Hanc]|Hge]; [left | right; lia].
      split.
      - intros ->. rewrite is_ancestor_child in Hanc by auto. discriminate.
      - apply is_ancestor_up; [lia|].
        now replace (parent c) with i
          by (destruct Hc as [-> | ->];
              [rewrite parent_left | rewrite parent_right]; lia). }
    rewrite Hf2 by auto. now apply Hf1. }
  destruct (Z.gtb_spec (2 * i + 1) (hSize h - 1)) as [Hl|Hl].
  { replace (2 * i + 2 >? hSize h - 1) with true in E
      by (symmetry; apply Z.gtb_lt; lia).
    now apply Hsame. }
  cbn [andb] in E.
  apply bind_Ret_inv in E as (only_left & Honly & E).
  destruct (Z.gtb_spec (2 * i + 2) (hSize h - 1)) as [Hr|Hr].
  - apply bind_Ret_inv in Honly as (ai & [Hi _]%rd_Ret & Honly).
    apply bind_Ret_inv in Honly as (al & _ & Honly).
    destruct only_left.
    + apply (Hswap (2 * i + 1) h' Hi); auto; lia.
    + replace (2 * i + 2 <? hSize h) with false in E
        by (symmetry; apply Z.ltb_ge; lia).
      rewrite andb_false_r in E. now apply Hsame.
  - inversion Honly; subst only_left.
    replace (2 * i + 1 <? hSize h) with true in E
      by (symmetry; apply Z.ltb_lt; lia).
    replace (2 * i + 2 <? hSize h) with true in E
      by (symmetry; apply Z.ltb_lt; lia).
    cbn [andb] in E.
    apply bind_Ret_inv in E as (ai & [Hi _]%rd_Ret & E).
    apply bind_Ret_inv in E as (al & _ & E).
    apply bind_Ret_inv in E as (smallest & _ & E).
    destruct smallest; [now apply Hsame|].
    apply bind_Ret_inv in E as (ar & _ & E).
    destruct (priority al >? priority ar);
      apply bind_Ret_inv in E as (g & Hs & E).
    + apply (Hrec (2 * i + 2) g); auto; lia.
    + apply (Hrec (2 * i + 1) g); auto; lia.
Qed.

(** On a well-formed heap [trickleDown] returns, whatever the order of
    the entries. *)
Lemma trickleDown_rec_wf fuel : forall i h,
  (Z.to_nat (hSize h - i) < fuel)%nat -> 0 <= i ->
  2 * i + 2 <= INT_MAX -> 0 <= hSize h -> 2 * hSize h <= INT_MAX ->
  filled (A h) (hSize h) ->
  exists a', trickleDown_rec fuel i h = Ret (set_A h a') /\
             length a' = length (A h) /\ filled a' (hSize h) /\ a' ≡ₚ A h.
Proof.
  induction fuel as [|fuel IH]; intros i h Hfuel Hi Hmax Hn0 Hn Hf; [lia|].
  cbn [trickleDown_rec].
  rewrite (int_Ret (2 * i)) by (unfold INT_MIN, INT_MAX in *; lia). cbn [bind].
  rewrite (int_Ret (2 * i + 1)) by (unfold INT_MIN, INT_MAX in *; lia). cbn [bind].
  rewrite (int_Ret (2 * i + 2)) by (unfold INT_MIN, INT_MAX in *; lia). cbn [bind].
  rewrite (int_Ret (hSize h - 1)) by (unfold INT_MIN, INT_MAX in *; lia). cbn [bind].
  set (n := hSize h) in *.
  assert (Hsame : exists a', Ret h = Ret (set_A h a') /\
             length a' = length (A h) /\ filled a' n /\ a' ≡ₚ A h).
  { exists (A h). destruct h. split_and!; auto. }
  destruct (Z.gtb_spec (2 * i + 1) (n - 1)) as [Hl|Hl].
  { now replace (2 * i + 2 >? n - 1) with true by (symmetry; apply Z.gtb_lt; lia). }
  cbn [andb].
  destruct (rd_filled _ _ i Hf ltac:(lia)) as [ai Hai].
  destruct (rd_filled _ _ (2 * i + 1) Hf ltac:(lia)) as [al Hal].
  assert (Hgo : forall c ac, (c = 2 * i + 1 \/ c = 2 * i + 2) -> c < n ->
            rd (A h) c = Ret ac ->
            exists a', (do h1 <- swap i c h ;; trickleDown_rec fuel c h1)
                       = Ret (set_A h a') /\
              length a' = length (A h) /\ filled a' n /\ a' ≡ₚ A h).
  { intros c ac Hc Hcn Hac.
    destruct (swap_spec h i c ai ac Hai Hac) as (a1 & Hs & Hex).
    rewrite Hs. cbn [bind]. pose proof Hex as (Hl1 & _ & _ & _ & Hperm1).
    destruct (IH c (set_A h a1)) as (a' & Hr' & Hl' & Hf' & Hperm');
      simpl; fold n; try lia.
    - eapply exchanged_filled; eauto; lia.
    - exists a'. simpl in *. split_and!; auto; [congruence | now rewrite Hperm']. }
  destruct (Z.gtb_spec (2 * i + 2) (n - 1)) as [Hr|Hr].
  { rewrite Hai, Hal. cbn [bind].
    destruct (priority ai >? priority al).
    - destruct (swap_spec h i (2 * i + 1) ai al Hai Hal) as (a1 & Hs & Hex).
      rewrite Hs. exists a1. pose proof Hex as (Hl1 & _ & _ & _ & Hperm1).
      split_and!; auto. eapply exchanged_filled; eauto; lia.
    - replace (2 * i + 2 <? n) with false by (symmetry; apply Z.ltb_ge; lia).
      now rewrite andb_false_r. }
  cbn [bind].
  replace (2 * i + 1 <? n) with true by (symmetry; apply Z.ltb_lt; lia).
  replace (2 * i + 2 <? n) with true by (symmetry; apply Z.ltb_lt; lia).
  cbn [andb].
  destruct (rd_filled _ _ (2 * i + 2) Hf ltac:(lia)) as [ar Har].
  rewrite Hai, Hal. cbn [bind].
  destruct (priority ai <=? priority al); rewrite ?Har; cbn [bind].
  - destruct (priority ai <=? priority ar); [exact Hsame|].
    destruct (priority al >? priority ar).
    + apply (Hgo (2 * i + 2) ar); auto; lia.
    + apply (Hgo (2 * i + 1) al); auto; lia.
  - destruct (priority al >? priority ar).
    + apply (Hgo (2 * i + 2) ar); auto; lia.
    + apply (Hgo (2 * i + 1) al); auto; lia.
Qed.

(** X15. On a well-formed heap [trickleDown(i)] at an index below the
    size returns a heap with the same entries, size and capacity, and it
    changes no cell outside the subtree of [i]: every cell whose index is
    neither [i] nor a descendant of [i], or is not below the size, holds
    what it held before. *)
Theorem trickleDown_changes_subtree_only (i : Z) (h : Heap) :
  heap_wf h -> 0 <= i < size h ->
  exists h', trickleDown i h = Ret h' /\ heap_wf h' /\
             size h' = size h /\ capacity h' = capacity h /\
             entries h' ≡ₚ entries h /\
             forall j : nat,
               (Z.of_nat j <> i /\ is_ancestor i (Z.of_nat j) = false) \/
               size h <= Z.of_nat j ->
               A h' !! j = A h !! j.
Proof.
  unfold size, capacity. intros [Hlen Hsz Hcap Hf] Hi.
  destruct (trickleDown_rec_wf (S (Z.to_nat (hSize h - i))) i h)
    as (a' & E & Hl & Hf' & Hperm); try lia; auto.
  fold (trickleDown i h) in E.
  destruct (trickleDown_rec_frame _ _ _ _ E) as (_ & _ & Hfr). simpl in Hfr.
  assert (Hfr' : forall j : nat,
            (Z.of_nat j <> i /\ is_ancestor i (Z.of_nat j) = false) \/
            hSize h <= Z.of_nat j -> a' !! j = A h !! j).
  { intros j Hj. specialize (Hfr (Z.of_nat j) ltac:(lia) Hj).
    now rewrite Nat2Z.id in Hfr. }
  exists (set_A h a'). simpl. split_and!; auto.
  - constructor; simpl; auto; lia.
  - unfold entries. simpl.
    apply (omap_Permutation id), take_Permutation; auto; [|lia].
    intros k Hk. apply Hfr'. right. lia.
Qed.

Lemma trickleDown_changes_subtree_only_witness :
  let h := {| A := [Some (mkPair 1 9); Some (mkPair 2 4); Some (mkPair 3 7);
                    Some (mkPair 4 1); None];
              hCapacity := 5; hSize := 4 |} in
  heap_wf h /\ 0 <= 1 < size h /\
  exists h', trickleDown 1 h = Ret h' /\ heap_wf h' /\
             size h' = size h /\ capacity h' = capacity h /\
             entries h' ≡ₚ entries h /\
             forall j : nat,
               (Z.of_nat j <> 1 /\ is_ancestor 1 (Z.of_nat j) = false) \/
               size h <= Z.of_nat j ->
               A h' !! j = A h !! j.
Proof.
  intros h.
  assert (H1 : heap_wf h) by (apply heap_wfb_sound; vm_compute; reflexivity).
  assert (H2 : 0 <= 1 < size h) by (simpl; lia).
  split; [exact H1|]. split; [exact H2|].
  exact (trickleDown_changes_subtree_only 1 h H1 H2).
Defined.

(** X16. [extractMin] on a non-empty heap satisfying the invariant writes
    no cell at or after the position of the old last entry: every cell
    with index [size - 1] or more holds what it held before, so the old
    last entry is still stored just past the new size. *)
Theorem extractMin_keeps_tail (h : Heap) :
  heap_inv h -> 0 < size h ->
  exists e h', extractMin h = Ret (e, h') /\
               size h' = size h - 1 /\
               forall j : nat, size h - 1 <= Z.of_nat j -> A h' !! j = A h !! j.
Proof.
  unfold size. intros Hinv Hpos.
  destruct (extractMin_spec h Hinv Hpos) as (a0 & h' & Ha0 & E & _ & Hs & _).
  exists (element a0), h'. split_and!; auto.
  unfold extractMin in E.
  apply bind_Ret_inv in E as (a0' & _ & E).
  apply bind_Ret_inv in E as (last & [-> _]%int_inv & E).
  apply bind_Ret_inv in E as (al & [_ Hal]%rd_Ret & E).
  apply bind_Ret_inv in E as (a1 & [_ ->]%wr_inv & E).
  apply bind_Ret_inv in E as (n & [-> _]%int_inv & E).
  apply bind_Ret_inv in E as (h1 & Hd & E). inversion E; subst h1; clear E.
  apply trickleDown_rec_frame in Hd as (_ & _ & Hfr). simpl in Hfr.
  intros j Hj. specialize (Hfr (Z.of_nat j) ltac:(lia) ltac:(right; lia)).
  rewrite Nat2Z.id in Hfr. rewrite Hfr.
  destruct j as [|j].
  - replace (hSize h - 1) with 0 in Hal by lia.
    now rewrite list_insert_id.
  - now rewrite list_lookup_insert_ne by discriminate.
Qed.

Lemma extractMin_keeps_tail_witness :
  let h := {| A := [Some (mkPair 100 1); Some (mkPair 98 3);
                    Some (mkPair 99 8); Some (mkPair 97 5)];
              hCapacity := 4; hSize := 4 |} in
  heap_inv h /\ 0 < size h /\
  exists e h', extractMin h = Ret (e, h') /\
               size h' = size h - 1 /\
               forall j : nat, size h - 1 <= Z.of_nat j -> A h' !! j = A h !! j.
Proof.
  intros h.
  assert (H1 : heap_inv h) by (apply heap_invb_sound; vm_compute; reflexivity).
  assert (H2 : 0 < size h) by (simpl; lia).
  split; [exact H1|]. split; [exact H2|].
  exact (extractMin_keeps_tail h H1 H2).
Defined.
